(** * QueueSimulator: the circular queue of the queue visualiser

    A shallow embedding of the [QueueSimulator] React component: the
    [QueueState] record it keeps, the click handlers that update it
    ([initializeQueue], [enqueue], [dequeue], [getFront], [getRear],
    [checkIsEmpty], [checkIsFull], [showSize], [resetQueue], [goBack]) and
    the two timer callbacks the handlers schedule.

    Numbers are JavaScript numbers in the source.  Every number the
    component computes with is an integer ([parseInt] results, indices,
    counters), and is modelled by [Z]; this is exact below 2^53, where a
    double holds every integer.  [NaN] is the [None] of [parseInt]'s result. *)

From Stdlib Require Import ZArith String Ascii List Lia DecimalString DecimalPos.
From stdpp Require Import base list.

Local Open Scope string_scope.
Local Open Scope Z_scope.

(** ** JavaScript values, arrays and arithmetic *)

(** What a cell of [data] can hold: the [number | null] of the declared type,
    and [undefined], which is what reading outside the array gives. *)
Inductive jsval : Type :=
| JUndefined
| JNull
| JNum (n : Z).

(** [value !== null], the test the cell renderer uses for "occupied". *)
Definition notNull (v : jsval) : bool :=
  match v with
  | JNull => false
  | _ => true
  end.

(** [a[i]]: an index outside the array reads [undefined]. *)
Definition js_get (a : list jsval) (i : Z) : jsval :=
  if i <? 0 then JUndefined
  else match a !! Z.to_nat i with
       | Some v => v
       | None => JUndefined
       end.

(** [a[i] = v] on a fresh copy of the array.  Inside the array the cell is
    replaced; past its end the array grows, the gap reading [undefined]; a
    negative [i] names a property that is not an element, so the elements stay
    as they are (the next spread copy drops such a property).  That property
    itself is not kept: a read of [a[i]] at the same negative [i] gives
    [undefined] here and [v] in the source.  No handler writes at a negative
    index from a reachable state ([newRear_inside], [front_inside]). *)
Definition js_set (a : list jsval) (i : Z) (v : jsval) : list jsval :=
  if i <? 0 then a
  else if i <? Z.of_nat (length a) then <[Z.to_nat i := v]> a
  else a ++ replicate (Z.to_nat i - length a)%nat JUndefined ++ [v].

(** [a % b]: the sign follows the dividend.  ([a % 0] is [NaN] in the source;
    no handler divides by zero once the full-queue check has passed on a
    state with [0 <= size].) *)
Definition js_rem (a b : Z) : Z := Z.rem a b.

(** ** [parseInt] with no radix argument

    Leading white space, an optional sign, an optional [0x] prefix, then the
    longest run of digits; what follows the digits is ignored, and no digit
    at all gives [NaN].  Strings are strings of bytes here, so the white
    space is the ASCII one, which is all a number field can hold.  The result
    is the exact integer of the digit run; the source's is the nearest
    double, which is the same number up to 2^53 - 1 in magnitude. *)

Definition isWhiteSpace (c : ascii) : bool :=
  match nat_of_ascii c with
  | 9%nat | 10%nat | 11%nat | 12%nat | 13%nat | 32%nat => true
  | _ => false
  end.

Fixpoint trimStart (s : string) : string :=
  match s with
  | String c rest => if isWhiteSpace c then trimStart rest else s
  | EmptyString => s
  end.

(** The value of a character as a digit: 0-9, then a-z and A-Z for 10-35. *)
Definition digitValue (c : ascii) : option Z :=
  let n := Z.of_nat (nat_of_ascii c) in
  if (48 <=? n) && (n <=? 57) then Some (n - 48)
  else if (97 <=? n) && (n <=? 122) then Some (n - 87)
  else if (65 <=? n) && (n <=? 90) then Some (n - 55)
  else None.

(** The longest prefix of digits of the radix, read as a number; [None] when
    that prefix is empty. *)
Fixpoint readDigits (radix : Z) (s : string) (acc : option Z) : option Z :=
  match s with
  | String c rest =>
      match digitValue c with
      | Some d =>
          if d <? radix
          then readDigits radix rest
                 (Some (radix * (match acc with Some a => a | None => 0 end) + d))
          else acc
      | None => acc
      end
  | EmptyString => acc
  end.

Definition parseInt (text : string) : option Z :=
  let s := trimStart text in
  let '(sign, s) :=
    match s with
    | String "-" rest => (-1, rest)
    | String "+" rest => (1, rest)
    | _ => (1, s)
    end in
  let '(radix, s) :=
    match s with
    | String "0" (String "x" rest) => (16, rest)
    | String "0" (String "X" rest) => (16, rest)
    | _ => (10, s)
    end in
  match readDigits radix s None with
  | Some n => Some (sign * n)
  | None => None
  end.

(** ** The component's state *)

Record QueueState : Type := mkQueueState {
  data : list jsval;
  front : Z;
  rear : Z;
  size : Z;
  maxSize : Z
}.

(** The messages [setStatusMessage] is called with, one constructor per
    message text; [render] gives the text. *)
Inductive Message : Type :=
| MsgSetSize                          (* Set queue size to begin *)
| MsgInvalidSize                      (* Please enter a valid size (1-20) *)
| MsgInitialized (size : Z)           (* Queue initialized with size .. *)
| MsgInvalidNumber                    (* Please enter a valid number *)
| MsgQueueFull                        (* Queue is full! Cannot enqueue. *)
| MsgEnqueued (value newRear : Z)     (* Enqueued .. at position .. *)
| MsgQueueEmpty                       (* Queue is empty! Cannot dequeue. *)
| MsgDequeued (dequeuedValue : jsval) (* Dequeued .. from front *)
| MsgNoFront                          (* Queue is empty! No front element. *)
| MsgFront (v : jsval)                (* Front element: .. *)
| MsgNoRear                           (* Queue is empty! No rear element. *)
| MsgRear (v : jsval)                 (* Rear element: .. *)
| MsgIsEmpty (isEmpty : bool)         (* Queue is empty / not empty *)
| MsgIsFull (isFull : bool)           (* Queue is full / not full *)
| MsgSize (size maxSize : Z)          (* Current size: ../.. *)
| MsgReturning.                       (* Returning to Virtual Lab... *)

(** A number in a template literal: its decimal digits, with a leading minus
    sign.  The source prints the exponent form from 10^21 on; this prints
    every digit, so it is the source's text for magnitudes below 10^21. *)
Definition showNumber (n : Z) : string := NilZero.string_of_int (Z.to_int n).

Definition showValue (v : jsval) : string :=
  match v with
  | JUndefined => "undefined"
  | JNull => "null"
  | JNum n => showNumber n
  end.

Definition render (m : Message) : string :=
  match m with
  | MsgSetSize => "Set queue size to begin"
  | MsgInvalidSize => "Please enter a valid size (1-20)"
  | MsgInitialized n => "Queue initialized with size " ++ showNumber n
  | MsgInvalidNumber => "Please enter a valid number"
  | MsgQueueFull => "Queue is full! Cannot enqueue."
  | MsgEnqueued v i => "Enqueued " ++ showNumber v ++ " at position " ++ showNumber i
  | MsgQueueEmpty => "Queue is empty! Cannot dequeue."
  | MsgDequeued v => "Dequeued " ++ showValue v ++ " from front"
  | MsgNoFront => "Queue is empty! No front element."
  | MsgFront v => "Front element: " ++ showValue v
  | MsgNoRear => "Queue is empty! No rear element."
  | MsgRear v => "Rear element: " ++ showValue v
  | MsgIsEmpty b => "Queue is " ++ (if b then "empty" else "not empty")
  | MsgIsFull b => "Queue is " ++ (if b then "full" else "not full")
  | MsgSize n m => "Current size: " ++ showNumber n ++ "/" ++ showNumber m
  | MsgReturning => "Returning to Virtual Lab..."
  end.

(** The [useState] cells and the [useRef] cell of the component. *)
Record Component : Type := mkComponent {
  queueState : QueueState;
  inputValue : string;
  queueSize : string;
  isInitialized : bool;
  animatingIndex : option Z;
  statusMessage : Message;
  animationTimeoutRef : option nat
}.

(** The state every [useState] starts from; [resetQueue] sets the same
    [QueueState] again. *)
Definition emptyQueueState : QueueState :=
  {| data := []; front := 0; rear := -1; size := 0; maxSize := 0 |}.

Definition initialComponent : Component :=
  {| queueState := emptyQueueState;
     inputValue := "";
     queueSize := "";
     isInitialized := false;
     animatingIndex := None;
     statusMessage := MsgSetSize;
     animationTimeoutRef := None |}.

Definition setQueueState (q : QueueState) (c : Component) : Component :=
  mkComponent q (inputValue c) (queueSize c) (isInitialized c)
    (animatingIndex c) (statusMessage c) (animationTimeoutRef c).

Definition setInputValue (s : string) (c : Component) : Component :=
  mkComponent (queueState c) s (queueSize c) (isInitialized c)
    (animatingIndex c) (statusMessage c) (animationTimeoutRef c).

Definition setQueueSize (s : string) (c : Component) : Component :=
  mkComponent (queueState c) (inputValue c) s (isInitialized c)
    (animatingIndex c) (statusMessage c) (animationTimeoutRef c).

Definition setIsInitialized (b : bool) (c : Component) : Component :=
  mkComponent (queueState c) (inputValue c) (queueSize c) b
    (animatingIndex c) (statusMessage c) (animationTimeoutRef c).

Definition setAnimatingIndex (i : option Z) (c : Component) : Component :=
  mkComponent (queueState c) (inputValue c) (queueSize c) (isInitialized c)
    i (statusMessage c) (animationTimeoutRef c).

Definition setStatusMessage (m : Message) (c : Component) : Component :=
  mkComponent (queueState c) (inputValue c) (queueSize c) (isInitialized c)
    (animatingIndex c) m (animationTimeoutRef c).

Definition setAnimationTimeoutRef (r : option nat) (c : Component) : Component :=
  mkComponent (queueState c) (inputValue c) (queueSize c) (isInitialized c)
    (animatingIndex c) (statusMessage c) r.

(** ** Timers

    The two closures the handlers pass to [setTimeout].  The one [dequeue]
    schedules keeps the [queueState] of the render in which the button was
    clicked, the copy [newData] it made and the value it read. *)
Inductive Callback : Type :=
| AnimationEnd
| DequeueEnd (captured : QueueState) (newData : list jsval) (dequeuedValue : jsval).

(** The component together with the timers that are pending.  Timer ids are
    positive, as in a browser, so an id stored in the ref is truthy. *)
Record World : Type := mkWorld {
  component : Component;
  timers : list (nat * Callback);
  nextTimer : nat
}.

Definition initialWorld : World :=
  {| component := initialComponent; timers := []; nextTimer := 1 |}.

Definition update (f : Component -> Component) (w : World) : World :=
  mkWorld (f (component w)) (timers w) (nextTimer w).

(** [setTimeout(cb, ..)]: the timer's id is [nextTimer w]. *)
Definition setTimeout (cb : Callback) (w : World) : World :=
  mkWorld (component w) ((nextTimer w, cb) :: timers w) (S (nextTimer w)).

Definition clearTimeout (id : nat) (w : World) : World :=
  mkWorld (component w)
    (List.filter (fun t => negb (Nat.eqb (fst t) id)) (timers w)) (nextTimer w).

Fixpoint findTimer (id : nat) (ts : list (nat * Callback)) : option Callback :=
  match ts with
  | [] => None
  | (i, cb) :: rest => if Nat.eqb i id then Some cb else findTimer id rest
  end.

(** ** The handlers *)

Definition initializeQueue (w : World) : World :=
  match parseInt (queueSize (component w)) with
  | None => update (setStatusMessage MsgInvalidSize) w
  | Some size =>
      if (size <=? 0) || (20 <? size)
      then update (setStatusMessage MsgInvalidSize) w
      else
        let w := update (setQueueState
                   {| data := replicate (Z.to_nat size) JNull;
                      front := 0;
                      rear := -1;
                      size := 0;
                      maxSize := size |}) w in
        let w := update (setIsInitialized true) w in
        update (setStatusMessage (MsgInitialized size)) w
  end.

Definition enqueue (w : World) : World :=
  let q := queueState (component w) in
  match parseInt (inputValue (component w)) with
  | None => update (setStatusMessage MsgInvalidNumber) w
  | Some value =>
      if maxSize q <=? size q
      then update (setStatusMessage MsgQueueFull) w
      else
        let newRear := js_rem (rear q + 1) (maxSize q) in
        let newData := js_set (data q) newRear (JNum value) in
        let w := update (setAnimatingIndex (Some newRear)) w in
        let w := update (setQueueState
                   {| data := newData;
                      front := front q;
                      rear := newRear;
                      size := size q + 1;
                      maxSize := maxSize q |}) w in
        let w := update (setInputValue "") w in
        let w := update (setStatusMessage (MsgEnqueued value newRear)) w in
        let w := match animationTimeoutRef (component w) with
                 | Some (S id) => clearTimeout (S id) w
                 | _ => w
                 end in
        let id := nextTimer w in
        update (setAnimationTimeoutRef (Some id)) (setTimeout AnimationEnd w)
  end.

Definition dequeue (w : World) : World :=
  let q := queueState (component w) in
  if size q =? 0
  then update (setStatusMessage MsgQueueEmpty) w
  else
    let dequeuedValue := js_get (data q) (front q) in
    let newData := js_set (data q) (front q) JNull in
    let w := update (setAnimatingIndex (Some (front q))) w in
    setTimeout (DequeueEnd q newData dequeuedValue) w.

(** What a timer does when it fires. *)
Definition runCallback (cb : Callback) (w : World) : World :=
  match cb with
  | AnimationEnd => update (setAnimatingIndex None) w
  | DequeueEnd q newData dequeuedValue =>
      let newFront := js_rem (front q + 1) (maxSize q) in
      let w := update (setQueueState
                 {| data := newData;
                    front := newFront;
                    rear := rear q;
                    size := size q - 1;
                    maxSize := maxSize q |}) w in
      let w := update (setStatusMessage (MsgDequeued dequeuedValue)) w in
      update (setAnimatingIndex None) w
  end.

Definition getFront (w : World) : World :=
  let q := queueState (component w) in
  if size q =? 0
  then update (setStatusMessage MsgNoFront) w
  else update (setStatusMessage (MsgFront (js_get (data q) (front q)))) w.

Definition getRear (w : World) : World :=
  let q := queueState (component w) in
  if size q =? 0
  then update (setStatusMessage MsgNoRear) w
  else update (setStatusMessage (MsgRear (js_get (data q) (rear q)))) w.

Definition checkIsEmpty (w : World) : World :=
  let isEmpty := size (queueState (component w)) =? 0 in
  update (setStatusMessage (MsgIsEmpty isEmpty)) w.

Definition checkIsFull (w : World) : World :=
  let q := queueState (component w) in
  let isFull := maxSize q <=? size q in
  update (setStatusMessage (MsgIsFull isFull)) w.

Definition showSize (w : World) : World :=
  let q := queueState (component w) in
  update (setStatusMessage (MsgSize (size q) (maxSize q))) w.

Definition resetQueue (w : World) : World :=
  let w := update (setQueueState emptyQueueState) w in
  let w := update (setIsInitialized false) w in
  let w := update (setInputValue "") w in
  let w := update (setQueueSize "") w in
  let w := update (setStatusMessage MsgSetSize) w in
  update (setAnimatingIndex None) w.

Definition goBack (w : World) : World :=
  update (setStatusMessage MsgReturning) w.

(** ** What the page shows of the pointers

    A cell gets the front (rear) ring and its F (R) label when its index is
    [front] ([rear]) and the queue is not empty; the pointer panel prints
    [front] and [rear] as they are. *)
Definition marksFront (q : QueueState) (index : Z) : bool :=
  (index =? front q) && (0 <? size q).

Definition marksRear (q : QueueState) (index : Z) : bool :=
  (index =? rear q) && (0 <? size q).

(** ** Events

    What can happen to the component: text typed into one of the two inputs,
    a click on a button, a pending timer firing.  Handlers are run whether or
    not the page currently shows or enables their button, and a pending timer
    may fire at any time: this covers every schedule the browser allows. *)
Inductive Event : Type :=
| ChangeQueueSize (text : string)
| ChangeInputValue (text : string)
| ClickCreate
| ClickEnqueue
| ClickDequeue
| ClickGetFront
| ClickGetRear
| ClickIsEmpty
| ClickIsFull
| ClickShowSize
| ClickReset
| ClickBack
| TimerFires (id : nat).

Definition step (w : World) (e : Event) : World :=
  match e with
  | ChangeQueueSize text => update (setQueueSize text) w
  | ChangeInputValue text => update (setInputValue text) w
  | ClickCreate => initializeQueue w
  | ClickEnqueue => enqueue w
  | ClickDequeue => dequeue w
  | ClickGetFront => getFront w
  | ClickGetRear => getRear w
  | ClickIsEmpty => checkIsEmpty w
  | ClickIsFull => checkIsFull w
  | ClickShowSize => showSize w
  | ClickReset => resetQueue w
  | ClickBack => goBack w
  | TimerFires id =>
      match findTimer id (timers w) with
      | Some cb => runCallback cb (clearTimeout id w)
      | None => w
      end
  end.

Definition run (events : list Event) (w : World) : World :=
  fold_left step events w.

(** A world the component can be in: what some sequence of events makes of
    the initial one. *)
Definition reachable (w : World) : Prop :=
  exists events, run events initialWorld = w.

(** ** Operations of the queue

    As operations of the queue, [enqueue(value)] is the user typing the value
    and clicking Enqueue, [dequeue()] is a click on Dequeue followed by the
    timer that click has scheduled, with nothing in between, and
    [initialize(capacity)] is the user typing the capacity and clicking
    Create Queue. *)
Definition enqueueOp (text : string) (w : World) : World :=
  enqueue (update (setInputValue text) w).

Definition dequeueOp (w : World) : World :=
  step (dequeue w) (TimerFires (nextTimer w)).

Definition initializeOp (text : string) (w : World) : World :=
  initializeQueue (update (setQueueSize text) w).

(** The [QueueState] a successful [enqueue] passes to [setQueueState]. *)
Definition enqueueState (value : Z) (q : QueueState) : QueueState :=
  let newRear := js_rem (rear q + 1) (maxSize q) in
  {| data := js_set (data q) newRear (JNum value);
     front := front q;
     rear := newRear;
     size := size q + 1;
     maxSize := maxSize q |}.

(** The [QueueState] the timer of a successful [dequeue] passes to
    [setQueueState]. *)
Definition dequeueState (q : QueueState) : QueueState :=
  {| data := js_set (data q) (front q) JNull;
     front := js_rem (front q + 1) (maxSize q);
     rear := rear q;
     size := size q - 1;
     maxSize := maxSize q |}.

(** The queue of a world, for short. *)
Definition queueOf (w : World) : QueueState := queueState (component w).

(** ** Well-formed queues *)

(** The number of cells that show as occupied ([value !== null]). *)
Definition occupied (d : list jsval) : Z :=
  Z.of_nat (length (List.filter notNull d)).

(** The cells from [front], [size] of them, each step [+1] modulo [maxSize]:
    the values in the queue, oldest first. *)
Definition contents (q : QueueState) : list jsval :=
  map (fun k => js_get (data q) ((front q + Z.of_nat k) mod maxSize q))
      (seq 0 (Z.to_nat (size q))).

(** A queue that [initializeQueue] has created and the operations have
    worked on. *)
Record live (q : QueueState) : Prop := mkLive {
  live_cap : 1 <= maxSize q <= 20;
  live_len : Z.of_nat (length (data q)) = maxSize q;
  live_front : 0 <= front q < maxSize q;
  live_rear : -1 <= rear q < maxSize q;
  live_size : 0 <= size q <= maxSize q;
  live_ring : (rear q + 1) mod maxSize q = (front q + size q) mod maxSize q;
  live_used : forall k, 0 <= k < size q ->
      exists v, js_get (data q) ((front q + k) mod maxSize q) = JNum v;
  live_free : forall k, size q <= k < maxSize q ->
      js_get (data q) ((front q + k) mod maxSize q) = JNull;
  live_count : occupied (data q) = size q;
  live_fresh : rear q = -1 -> size q = 0
}.

Definition wfQueue (q : QueueState) : Prop :=
  q = emptyQueueState \/ live q.

(** A pending [dequeue] timer holds a live, non-empty queue and what
    [dequeue] computed from it. *)
Definition pendingOk (t : nat * Callback) : Prop :=
  match snd t with
  | AnimationEnd => True
  | DequeueEnd q newData dequeuedValue =>
      live q /\ 0 < size q /\
      newData = js_set (data q) (front q) JNull /\
      dequeuedValue = js_get (data q) (front q)
  end.

(** The id of a pending timer has been handed out already. *)
Definition issued (next : nat) (t : nat * Callback) : Prop :=
  (fst t < next)%nat.

Definition invariant (w : World) : Prop :=
  wfQueue (queueOf w) /\
  Forall pendingOk (timers w) /\
  Forall (issued (nextTimer w)) (timers w).

(** What one cell adds to [occupied]. *)
Definition cellCount (v : jsval) : Z := if notNull v then 1 else 0.

(** ** Runs of operations *)

Inductive Op : Type :=
| Enqueue (text : string)
| Dequeue.

Definition perform (w : World) (op : Op) : World :=
  match op with
  | Enqueue text => enqueueOp text w
  | Dequeue => dequeueOp w
  end.

Definition performAll (ops : list Op) (w : World) : World :=
  fold_left perform ops w.

(** An operation is called within its precondition: [enqueue] with a number
    while there is room, [dequeue] while the queue is not empty. *)
Definition permitted (w : World) (op : Op) : bool :=
  match op with
  | Enqueue text =>
      match parseInt text with
      | Some _ => size (queueOf w) <? maxSize (queueOf w)
      | None => false
      end
  | Dequeue => 0 <? size (queueOf w)
  end.

Fixpoint legal (ops : list Op) (w : World) : bool :=
  match ops with
  | [] => true
  | op :: rest => permitted w op && legal rest (perform w op)
  end.

(** The values passed to [enqueue], in call order. *)
Fixpoint enqueuedValues (ops : list Op) : list jsval :=
  match ops with
  | [] => []
  | Enqueue text :: rest =>
      match parseInt text with
      | Some value => JNum value :: enqueuedValues rest
      | None => enqueuedValues rest
      end
  | Dequeue :: rest => enqueuedValues rest
  end.

(** The value a [dequeue] reports, read off the status message. *)
Definition reported (w : World) : list jsval :=
  match statusMessage (component w) with
  | MsgDequeued v => [v]
  | _ => []
  end.

(** The values the [dequeue] calls of a run report, in call order. *)
Fixpoint dequeuedValues (ops : list Op) (w : World) : list jsval :=
  match ops with
  | [] => []
  | Enqueue text :: rest => dequeuedValues rest (enqueueOp text w)
  | Dequeue :: rest =>
      (reported (dequeueOp w) ++ dequeuedValues rest (dequeueOp w))%list
  end.

(** How many [dequeue] calls a run makes. *)
Fixpoint dequeueCalls (ops : list Op) : nat :=
  match ops with
  | [] => 0%nat
  | Enqueue _ :: rest => dequeueCalls rest
  | Dequeue :: rest => S (dequeueCalls rest)
  end.

(** [initialize] turns the capacity down: the message is the invalid-size
    one, and nothing else of the world changes. *)
Definition rejectsCapacity (text : string) (w : World) : Prop :=
  initializeOp text w
  = update (setStatusMessage MsgInvalidSize) (update (setQueueSize text) w).


(** ** What the page lets the user do

    The size input and the Create button are shown while [isInitialized] is
    false, the queue panel and its controls while it is true; the value input
    is disabled on a full queue, the Enqueue button on a full queue or an
    empty input, Dequeue, Get Front and Get Rear on an empty queue.  Reset
    and Back are always there, and a timer fires whatever the page shows. *)
Definition enabled (w : World) (e : Event) : bool :=
  let c := component w in
  let q := queueState c in
  match e with
  | ChangeQueueSize _ => negb (isInitialized c)
  | ClickCreate => negb (isInitialized c)
  | ChangeInputValue _ => isInitialized c && negb (maxSize q <=? size q)
  | ClickEnqueue =>
      isInitialized c
      && negb ((maxSize q <=? size q) || String.eqb (inputValue c) "")
  | ClickDequeue | ClickGetFront | ClickGetRear =>
      isInitialized c && negb (size q =? 0)
  | ClickIsEmpty | ClickIsFull | ClickShowSize => isInitialized c
  | ClickReset | ClickBack => true
  | TimerFires _ => true
  end.

(** Every event of the run is one the page allows when it happens. *)
Fixpoint allowed (events : list Event) (w : World) : bool :=
  match events with
  | [] => true
  | e :: rest => enabled w e && allowed rest (step w e)
  end.

(** The buttons that only ask: Get Front, Get Rear, Is Empty?, Is Full?,
    Show Size, and Back. *)
Definition isInspection (e : Event) : bool :=
  match e with
  | ClickGetFront | ClickGetRear | ClickIsEmpty | ClickIsFull
  | ClickShowSize | ClickBack => true
  | _ => false
  end.

(** The animation class of the cell at [index]: the enqueue animation when
    the cell is the highlighted one and holds a value, the dequeue animation
    when it is the highlighted one and holds null, none otherwise. *)
Definition cellAnimation (c : Component) (index : Z) : string :=
  match animatingIndex c with
  | Some i =>
      if i =? index
      then if notNull (js_get (data (queueState c)) index)
           then "animate-queue-enqueue"
           else "animate-queue-dequeue"
      else ""
  | None => ""
  end.

Definition isAnimationEnd (t : nat * Callback) : bool :=
  match snd t with
  | AnimationEnd => true
  | DequeueEnd _ _ _ => false
  end.

(** How many [enqueue] calls a run makes. *)
Fixpoint enqueueCalls (ops : list Op) : nat :=
  match ops with
  | [] => 0%nat
  | Enqueue _ :: rest => S (enqueueCalls rest)
  | Dequeue :: rest => enqueueCalls rest
  end.


(** What holds of the timers of a reachable world: ids start at 1, the ref
    holds an id that has been handed out, and a pending animation timer is
    the one the ref names, so there is at most one. *)
Definition timerInvariant (w : World) : Prop :=
  (1 <= nextTimer w)%nat /\
  (forall r, animationTimeoutRef (component w) = Some r ->
             (1 <= r < nextTimer w)%nat) /\
  Forall (fun t => isAnimationEnd t = true ->
                   animationTimeoutRef (component w) = Some (fst t)) (timers w) /\
  (length (List.filter isAnimationEnd (timers w)) <= 1)%nat.

(** The messages that turn an operation down because of the state of the
    queue. *)
Definition isRejection (m : Message) : bool :=
  match m with
  | MsgQueueFull | MsgQueueEmpty | MsgNoFront | MsgNoRear => true
  | _ => false
  end.

(** What holds of the highlight along the runs the page allows: there is
    none while the set-up card is shown, and the highlighted cell never holds
    null. *)
Definition highlightInvariant (w : World) : Prop :=
  (isInitialized (component w) = false -> animatingIndex (component w) = None) /\
  (forall i, animatingIndex (component w) = Some i ->
             notNull (js_get (data (queueOf w)) i) = true).

(** A character [parseInt] reads as a digit in radix 10. *)
Definition isDecimalDigit (c : ascii) : bool :=
  match digitValue c with
  | Some d => d <? 10
  | None => false
  end.

(** The text is empty or starts with a character that is no decimal digit,
    so a run of decimal digits before it ends there. *)
Definition digitsEnd (rest : string) : Prop :=
  match rest with
  | String c _ => isDecimalDigit c = false
  | EmptyString => True
  end.

(** ** Calls one at a time

    A dequeue is pending from the click on Dequeue until its timer fires. *)
Definition isDequeueEnd (t : nat * Callback) : bool := negb (isAnimationEnd t).

Definition dequeuePending (w : World) : bool := existsb isDequeueEnd (timers w).











(** The event is neither a click on Create Queue nor one on Reset. *)
Definition keepsQueue (e : Event) : bool :=
  match e with
  | ClickCreate | ClickReset => false
  | _ => true
  end.

(** The queue and every pending dequeue have capacity [n] and [cells]
    cells. *)
Definition hasShape (n : Z) (cells : nat) (t : nat * Callback) : Prop :=
  match snd t with
  | AnimationEnd => True
  | DequeueEnd captured newData _ =>
      maxSize captured = n /\ length newData = cells
  end.

Definition sameShape (n : Z) (cells : nat) (w : World) : Prop :=
  maxSize (queueOf w) = n /\
  length (data (queueOf w)) = cells /\
  Forall (hasShape n cells) (timers w).

(** The integers a double holds exactly and prints digit by digit. *)
Definition isSafeInteger (n : Z) : bool :=
  (-9007199254740991 <=? n) && (n <=? 9007199254740991).

(** One step of [readDigits] on a digit that is known. *)
Ltac read_digit :=
  cbn [NilEmpty.string_of_uint String.append readDigits];
  match goal with
  | |- context [digitValue ?c] =>
      let v := eval vm_compute in (digitValue c) in
      change (digitValue c) with v
  end;
  cbv iota beta;
  match goal with
  | |- context [?a <? 10] =>
      let v := eval vm_compute in (a <? 10) in change (a <? 10) with v
  end;
  cbv iota beta.

(** * Proofs *)

(** ** Arrays *)

Section Arrays.
Variable a : list jsval.
Variables (i : Z) (v : jsval).
Hypothesis inside : 0 <= i < Z.of_nat (length a).

Lemma js_set_inside : js_set a i v = <[Z.to_nat i := v]> a.
Proof.
  unfold js_set.
  destruct (Z.ltb_spec i 0); [lia|].
  destruct (Z.ltb_spec i (Z.of_nat (length a))); [reflexivity | lia].
Qed.

Lemma length_js_set : length (js_set a i v) = length a.
Proof. rewrite js_set_inside. apply length_insert. Qed.

Lemma js_get_set_eq : js_get (js_set a i v) i = v.
Proof.
  rewrite js_set_inside. unfold js_get.
  destruct (Z.ltb_spec i 0); [lia|].
  rewrite list_lookup_insert_eq; [reflexivity | lia].
Qed.

Lemma js_get_set_ne j : j <> i -> js_get (js_set a i v) j = js_get a j.
Proof.
  intros Hne. rewrite js_set_inside. unfold js_get.
  destruct (Z.ltb_spec j 0); [reflexivity|].
  rewrite list_lookup_insert_ne; [reflexivity | lia].
Qed.
End Arrays.

Lemma occupied_cons v d : occupied (v :: d) = cellCount v + occupied d.
Proof.
  unfold occupied, cellCount. simpl. destruct (notNull v); simpl length; lia.
Qed.

Lemma occupied_insert d : forall (n : nat) v old,
  d !! n = Some old ->
  occupied (<[n := v]> d) = occupied d - cellCount old + cellCount v.
Proof.
  induction d as [|x d IH]; intros n v old Hn.
  - discriminate.
  - destruct n as [|n]; simpl in Hn.
    + injection Hn as ->. simpl. rewrite !occupied_cons. lia.
    + simpl. rewrite !occupied_cons, (IH n v old Hn). lia.
Qed.

Lemma occupied_js_set d i v :
  0 <= i < Z.of_nat (length d) ->
  occupied (js_set d i v) = occupied d - cellCount (js_get d i) + cellCount v.
Proof.
  intros Hi. rewrite js_set_inside by assumption.
  destruct (lookup_lt_is_Some_2 d (Z.to_nat i)) as [old Hold]; [lia|].
  rewrite (occupied_insert d _ v old Hold).
  unfold js_get. destruct (Z.ltb_spec i 0); [lia|]. now rewrite Hold.
Qed.

Lemma occupied_replicate_null n : occupied (replicate n JNull) = 0.
Proof.
  induction n as [|n IH]; [reflexivity|].
  simpl. rewrite occupied_cons, IH. reflexivity.
Qed.

Lemma js_get_replicate_null n i :
  0 <= i < Z.of_nat n -> js_get (replicate n JNull) i = JNull.
Proof.
  intros Hi. unfold js_get. destruct (Z.ltb_spec i 0); [lia|].
  rewrite lookup_replicate_2; [reflexivity | lia].
Qed.

(** ** Ring arithmetic *)

Lemma js_rem_mod a m : 0 <= a -> 0 < m -> js_rem a m = a mod m.
Proof. intros. unfold js_rem. apply Z.rem_mod_nonneg; lia. Qed.

Lemma ring_inj f j k m :
  0 <= j < m -> 0 <= k < m -> (f + j) mod m = (f + k) mod m -> j = k.
Proof.
  intros Hj Hk E.
  assert (Hm : 0 < m) by lia.
  pose proof (Z.div_mod (f + j) m ltac:(lia)) as D1.
  pose proof (Z.div_mod (f + k) m ltac:(lia)) as D2.
  pose proof (Z.mod_pos_bound (f + j) m Hm) as B1.
  rewrite E in D1.
  assert (Hq : m * ((f + j) / m - (f + k) / m) = j - k) by lia.
  assert ((f + j) / m - (f + k) / m = 0) by nia.
  nia.
Qed.

Lemma ring_next f k m : 0 < m -> ((f + 1) mod m + k) mod m = (f + (k + 1)) mod m.
Proof.
  intros Hm. rewrite Z.add_mod_idemp_l by lia. f_equal. lia.
Qed.

Lemma ring_start f m : 0 <= f < m -> (f + 0) mod m = f.
Proof. intros. rewrite Z.add_0_r. apply Z.mod_small. lia. Qed.

Lemma ring_wrap f m : 0 <= f < m -> (f + m) mod m = f.
Proof.
  intros. rewrite <- (Z.mul_1_l m) at 1. rewrite Z.mod_add by lia.
  apply Z.mod_small. lia.
Qed.

(** ** The well-formedness of queues is preserved *)

Lemma live_initial n :
  1 <= n <= 20 ->
  live {| data := replicate (Z.to_nat n) JNull;
          front := 0; rear := -1; size := 0; maxSize := n |}.
Proof.
  intros Hn. constructor; simpl; try lia.
  - rewrite length_replicate. lia.
  - reflexivity.
  - intros k Hk. apply js_get_replicate_null.
    pose proof (Z.mod_pos_bound (0 + k) n ltac:(lia)). lia.
  - apply occupied_replicate_null.
Qed.

Section Enqueue.
Variables (q : QueueState) (value : Z).
Hypothesis Hlive : live q.
Hypothesis Hroom : size q < maxSize q.

Lemma newRear_mod : js_rem (rear q + 1) (maxSize q) = (rear q + 1) mod maxSize q.
Proof. destruct Hlive. apply js_rem_mod; lia. Qed.

Lemma newRear_ring :
  js_rem (rear q + 1) (maxSize q) = (front q + size q) mod maxSize q.
Proof. rewrite newRear_mod. apply Hlive. Qed.

Lemma newRear_inside :
  0 <= js_rem (rear q + 1) (maxSize q) < Z.of_nat (length (data q)).
Proof.
  rewrite newRear_ring. destruct Hlive.
  rewrite live_len0. apply Z.mod_pos_bound. lia.
Qed.

Lemma newRear_was_free :
  js_get (data q) (js_rem (rear q + 1) (maxSize q)) = JNull.
Proof. rewrite newRear_ring. destruct Hlive. apply live_free0. lia. Qed.

Lemma newRear_other k :
  0 <= k < maxSize q -> k <> size q ->
  (front q + k) mod maxSize q <> js_rem (rear q + 1) (maxSize q).
Proof.
  intros Hk Hne E. rewrite newRear_ring in E.
  destruct Hlive. apply Hne.
  apply (ring_inj (front q) k (size q) (maxSize q)); lia.
Qed.

Lemma live_enqueue : live (enqueueState value q).
Proof.
  pose proof newRear_inside as Hin.
  pose proof newRear_ring as Hring.
  pose proof newRear_was_free as Hfree.
  pose proof newRear_other as Hother.
  destruct Hlive. unfold enqueueState.
  set (newRear := js_rem (rear q + 1) (maxSize q)) in *.
  constructor; simpl; try lia.
  - rewrite length_js_set by assumption. assumption.
  - rewrite Hring. rewrite Z.add_mod_idemp_l by lia. f_equal. lia.
  - intros k Hk. destruct (Z.eq_dec k (size q)) as [->|Hne].
    + exists value. rewrite <- Hring. apply js_get_set_eq. assumption.
    + rewrite js_get_set_ne; [apply live_used0; lia | assumption |].
      apply Hother; lia.
  - intros k Hk. rewrite js_get_set_ne; [apply live_free0; lia | assumption |].
    apply Hother; lia.
  - rewrite occupied_js_set by assumption. rewrite Hfree.
    cbn [cellCount notNull]. lia.
Qed.
End Enqueue.

Section Dequeue.
Variable q : QueueState.
Hypothesis Hlive : live q.
Hypothesis Hsome : 0 < size q.

Lemma front_inside : 0 <= front q < Z.of_nat (length (data q)).
Proof. destruct Hlive. lia. Qed.

Lemma newFront_mod :
  js_rem (front q + 1) (maxSize q) = (front q + 1) mod maxSize q.
Proof. destruct Hlive. apply js_rem_mod; lia. Qed.

Lemma front_was_used : exists v, js_get (data q) (front q) = JNum v.
Proof.
  destruct Hlive. destruct (live_used0 0 ltac:(lia)) as [v Hv].
  rewrite ring_start in Hv by lia. eauto.
Qed.

Lemma front_other k :
  0 < k < maxSize q -> (front q + k) mod maxSize q <> front q.
Proof.
  intros Hk E. destruct Hlive.
  rewrite <- (ring_start (front q) (maxSize q)) in E at 2 by lia.
  apply (ring_inj (front q) k 0 (maxSize q)) in E; lia.
Qed.

Lemma live_dequeue : live (dequeueState q).
Proof.
  pose proof front_inside as Hin.
  pose proof newFront_mod as Hnew.
  pose proof front_was_used as [old Hold].
  pose proof front_other as Hother.
  destruct Hlive. unfold dequeueState.
  rewrite Hnew. constructor; simpl; try lia.
  - rewrite length_js_set by assumption. assumption.
  - apply Z.mod_pos_bound. lia.
  - rewrite ring_next by lia. rewrite live_ring0. f_equal. lia.
  - intros k Hk. rewrite ring_next by lia.
    rewrite js_get_set_ne; [apply live_used0; lia | assumption |].
    apply Hother. lia.
  - intros k Hk. rewrite ring_next by lia.
    destruct (Z.eq_dec (k + 1) (maxSize q)) as [E|Hne].
    + rewrite E, ring_wrap by lia. apply js_get_set_eq. assumption.
    + rewrite js_get_set_ne; [apply live_free0; lia | assumption |].
      apply Hother. lia.
  - rewrite occupied_js_set by assumption. rewrite Hold.
    cbn [cellCount notNull]. lia.
Qed.
End Dequeue.

(** ** What the handlers do to the queue *)

Lemma wfQueue_room q : wfQueue q -> size q < maxSize q -> live q.
Proof. intros [->|H] Hroom; [simpl in Hroom; lia | exact H]. Qed.

Lemma wfQueue_some q : wfQueue q -> size q <> 0 -> live q /\ 0 < size q.
Proof.
  intros [->|H] Hsome; [simpl in Hsome; lia|].
  split; [exact H|]. destruct H. lia.
Qed.

Lemma wfQueue_bounds q : wfQueue q -> 0 <= size q <= maxSize q.
Proof. intros [->|H]; [simpl; lia | apply H]. Qed.

Lemma enqueue_accepts w value :
  parseInt (inputValue (component w)) = Some value ->
  size (queueOf w) < maxSize (queueOf w) ->
  queueOf (enqueue w) = enqueueState value (queueOf w) /\
  statusMessage (component (enqueue w))
    = MsgEnqueued value (js_rem (rear (queueOf w) + 1) (maxSize (queueOf w))) /\
  animatingIndex (component (enqueue w))
    = Some (js_rem (rear (queueOf w) + 1) (maxSize (queueOf w))) /\
  inputValue (component (enqueue w)) = "".
Proof.
  intros Hparse Hroom. unfold enqueue, queueOf in *. rewrite Hparse.
  destruct (Z.leb_spec (maxSize (queueState (component w)))
                       (size (queueState (component w)))); [lia|].
  destruct (animationTimeoutRef _) as [[|id]|]; repeat split; reflexivity.
Qed.

Lemma enqueue_rejects w value :
  parseInt (inputValue (component w)) = Some value ->
  maxSize (queueOf w) <= size (queueOf w) ->
  enqueue w = update (setStatusMessage MsgQueueFull) w.
Proof.
  intros Hparse Hfull. unfold enqueue, queueOf in *. rewrite Hparse.
  destruct (Z.leb_spec (maxSize (queueState (component w)))
                       (size (queueState (component w)))); [reflexivity | lia].
Qed.

Lemma dequeue_rejects w :
  size (queueOf w) = 0 ->
  dequeue w = update (setStatusMessage MsgQueueEmpty) w.
Proof. intros H. unfold dequeue, queueOf in *. now rewrite H. Qed.

Lemma dequeue_schedules w :
  size (queueOf w) <> 0 ->
  dequeue w =
    setTimeout (DequeueEnd (queueOf w)
                  (js_set (data (queueOf w)) (front (queueOf w)) JNull)
                  (js_get (data (queueOf w)) (front (queueOf w))))
      (update (setAnimatingIndex (Some (front (queueOf w)))) w).
Proof.
  intros H. unfold dequeue, queueOf in *.
  destruct (Z.eqb_spec (size (queueState (component w))) 0); [lia | reflexivity].
Qed.

Lemma findTimer_fresh id cb ts : findTimer id ((id, cb) :: ts) = Some cb.
Proof. simpl. now rewrite Nat.eqb_refl. Qed.

(** A click on Dequeue and its timer, together. *)
Lemma dequeueOp_accepts w :
  size (queueOf w) <> 0 ->
  queueOf (dequeueOp w) = dequeueState (queueOf w) /\
  statusMessage (component (dequeueOp w))
    = MsgDequeued (js_get (data (queueOf w)) (front (queueOf w))) /\
  animatingIndex (component (dequeueOp w)) = None.
Proof.
  intros H. unfold dequeueOp. rewrite dequeue_schedules by assumption.
  unfold step, setTimeout. cbn [timers update nextTimer component].
  rewrite findTimer_fresh. repeat split; reflexivity.
Qed.

Lemma dequeueOp_rejects w :
  Forall (issued (nextTimer w)) (timers w) ->
  size (queueOf w) = 0 ->
  dequeueOp w = update (setStatusMessage MsgQueueEmpty) w.
Proof.
  intros Hfresh H. unfold dequeueOp. rewrite dequeue_rejects by assumption.
  unfold step. cbn [timers update nextTimer].
  assert (Hnone : forall ts, Forall (issued (nextTimer w)) ts ->
                             findTimer (nextTimer w) ts = None).
  { induction 1 as [|[i cb] ts Hi _ IH]; [reflexivity|].
    unfold issued in Hi. simpl in *.
    destruct (Nat.eqb_spec i (nextTimer w)); [lia | exact IH]. }
  now rewrite Hnone.
Qed.

(** ** The invariant of the component *)

Lemma Forall_keep {A} (P : A -> Prop) (keep : A -> bool) (l : list A) :
  Forall P l -> Forall P (List.filter keep l).
Proof.
  induction 1 as [|x l Hx _ IH]; simpl; [constructor|].
  destruct (keep x); [constructor|]; assumption.
Qed.

Lemma issued_later n t : issued n t -> issued (S n) t.
Proof. unfold issued. lia. Qed.

Lemma findTimer_Forall (P : nat * Callback -> Prop) id cb ts :
  Forall P ts -> findTimer id ts = Some cb -> exists i, P (i, cb).
Proof.
  induction 1 as [|[i c] ts Hi _ IH]; simpl; [discriminate|].
  destruct (Nat.eqb i id).
  - intros [= ->]. eauto.
  - exact IH.
Qed.

Lemma invariant_initial : invariant initialWorld.
Proof. repeat split; [left; reflexivity | constructor | constructor]. Qed.

Lemma invariant_update f w :
  queueState (f (component w)) = queueState (component w) ->
  invariant w -> invariant (update f w).
Proof.
  intros Hq (Hwf & Hpend & Hids). unfold invariant, queueOf in *.
  cbn [update component timers nextTimer]. rewrite Hq. auto.
Qed.

Lemma invariant_initializeQueue w : invariant w -> invariant (initializeQueue w).
Proof.
  intros Hinv. unfold initializeQueue.
  destruct (parseInt _) as [n|]; [|now apply invariant_update].
  destruct (Z.leb_spec n 0); [now apply invariant_update|].
  destruct (Z.ltb_spec 20 n); [now apply invariant_update|].
  destruct Hinv as (_ & Hpend & Hids). repeat split; try assumption.
  right. apply live_initial. lia.
Qed.

Lemma invariant_enqueue w : invariant w -> invariant (enqueue w).
Proof.
  intros Hinv.
  destruct (parseInt (inputValue (component w))) as [value|] eqn:Hparse.
  - destruct (Z.le_gt_cases (maxSize (queueOf w)) (size (queueOf w))) as [Hfull|Hroom].
    + rewrite (enqueue_rejects w value) by assumption. now apply invariant_update.
    + destruct Hinv as (Hwf & Hpend & Hids).
      destruct (enqueue_accepts w value Hparse) as (Hq & _); [lia|].
      split; [|split].
      * rewrite Hq. right. apply live_enqueue; [|lia].
        apply wfQueue_room; [assumption | lia].
      * unfold enqueue, queueOf in *. rewrite Hparse.
        destruct (Z.leb_spec (maxSize (queueState (component w)))
                             (size (queueState (component w)))); [lia|].
        cbn [update component animationTimeoutRef setStatusMessage
               setInputValue setQueueState setAnimatingIndex].
        destruct (animationTimeoutRef (component w)) as [[|id]|];
          cbn [update setTimeout clearTimeout timers component nextTimer];
          constructor; try exact I; try assumption.
        now apply Forall_keep.
      * unfold enqueue, queueOf in *. rewrite Hparse.
        destruct (Z.leb_spec (maxSize (queueState (component w)))
                             (size (queueState (component w)))); [lia|].
        cbn [update component animationTimeoutRef setStatusMessage
               setInputValue setQueueState setAnimatingIndex].
        destruct (animationTimeoutRef (component w)) as [[|id]|];
          cbn [update setTimeout clearTimeout timers component nextTimer];
          (constructor; [unfold issued; simpl; lia|]);
          try apply Forall_keep;
          (eapply Forall_impl; [eassumption | apply issued_later]).
  - unfold enqueue. rewrite Hparse. now apply invariant_update.
Qed.

Lemma invariant_dequeue w : invariant w -> invariant (dequeue w).
Proof.
  intros Hinv.
  destruct (Z.eq_dec (size (queueOf w)) 0) as [Hnone|Hsome].
  - rewrite dequeue_rejects by assumption. now apply invariant_update.
  - rewrite dequeue_schedules by assumption.
    destruct Hinv as (Hwf & Hpend & Hids).
    destruct (wfQueue_some _ Hwf Hsome) as [Hlive Hpos].
    split; [exact Hwf | split].
    + constructor; [|exact Hpend]. unfold pendingOk. simpl. auto.
    + constructor; [unfold issued; simpl; lia|].
      eapply Forall_impl; [exact Hids | apply issued_later].
Qed.

Lemma invariant_timer w id : invariant w -> invariant (step w (TimerFires id)).
Proof.
  intros (Hwf & Hpend & Hids). unfold step.
  destruct (findTimer id (timers w)) as [cb|] eqn:Hfind; [|repeat split; assumption].
  destruct (findTimer_Forall _ _ _ _ Hpend Hfind) as [i Hcb].
  assert (Hrest : invariant (clearTimeout id w)).
  { repeat split; [exact Hwf | |]; now apply Forall_keep. }
  destruct cb as [|q newData dequeuedValue].
  - now apply invariant_update.
  - destruct Hcb as (Hlive & Hpos & -> & ->).
    destruct Hrest as (_ & Hpend' & Hids').
    repeat split; [|exact Hpend' | exact Hids'].
    right. now apply live_dequeue.
Qed.

Lemma invariant_step w e : invariant w -> invariant (step w e).
Proof.
  intros Hinv. destruct e.
  - now apply invariant_update.
  - now apply invariant_update.
  - now apply invariant_initializeQueue.
  - now apply invariant_enqueue.
  - now apply invariant_dequeue.
  - unfold step, getFront. destruct (_ =? _); now apply invariant_update.
  - unfold step, getRear. destruct (_ =? _); now apply invariant_update.
  - now apply invariant_update.
  - now apply invariant_update.
  - now apply invariant_update.
  - destruct Hinv as (_ & Hpend & Hids).
    repeat split; [left; reflexivity | exact Hpend | exact Hids].
  - now apply invariant_update.
  - now apply invariant_timer.
Qed.

Lemma invariant_run events : forall w, invariant w -> invariant (run events w).
Proof.
  induction events as [|e events IH]; intros w Hinv; [exact Hinv|].
  apply IH. now apply invariant_step.
Qed.

Lemma reachable_invariant w : reachable w -> invariant w.
Proof. intros [events <-]. apply invariant_run, invariant_initial. Qed.

Lemma reachable_step w e : reachable w -> reachable (step w e).
Proof.
  intros [events <-]. exists (events ++ [e])%list.
  unfold run. now rewrite fold_left_app.
Qed.

Lemma reachable_perform w op : reachable w -> reachable (perform w op).
Proof.
  intros H. destruct op as [text|]; simpl.
  - apply (reachable_step _ ClickEnqueue),
          (reachable_step _ (ChangeInputValue text)), H.
  - unfold dequeueOp.
    apply reachable_step, (reachable_step _ ClickDequeue), H.
Qed.

Lemma reachable_wf w : reachable w -> wfQueue (queueOf w).
Proof. intros H. apply reachable_invariant in H. apply H. Qed.

Lemma rear_of_ring q :
  live q -> 0 < size q -> rear q = (front q + size q - 1) mod maxSize q.
Proof.
  intros H Hpos. destruct H.
  assert (Hrear : 0 <= rear q) by lia.
  rewrite <- (Z.mod_small (rear q) (maxSize q)) at 1 by lia.
  replace (rear q) with ((rear q + 1) + -1) at 1 by lia.
  rewrite <- Z.add_mod_idemp_l, live_ring0, Z.add_mod_idemp_l by lia.
  reflexivity.
Qed.

(** ** The reachable states *)

(** C6. Whatever events have happened since the component was created
    (typing, clicks on any button, timers firing in any order), the queue
    state satisfies [0 <= size <= maxSize], [size] is the number of occupied
    cells, and when [size > 0] the rear index is
    [(front + size - 1) mod maxSize]. *)
Theorem reachable_state_invariant (events : list Event) :
  let q := queueOf (run events initialWorld) in
  0 <= size q <= maxSize q /\
  size q = occupied (data q) /\
  (0 < size q -> rear q = (front q + size q - 1) mod maxSize q).
Proof.
  intros q.
  assert (Hwf : wfQueue q) by (apply reachable_wf; now exists events).
  destruct Hwf as [E|Hlive].
  - rewrite E. simpl. repeat split; lia.
  - repeat split; try apply Hlive.
    + symmetry. apply Hlive.
    + now apply rear_of_ring.
Qed.

(** ** Enqueue and dequeue *)

(** C2. On a reachable queue with [size < maxSize], enqueueing a number moves
    [rear] to [(rear + 1) mod maxSize] (which is [front] when the queue was
    empty), stores the number in that cell, adds one to [size], leaves every
    other cell, [front] and [maxSize] as they were, and reports that index in
    the status message and as the index to highlight. *)
Theorem enqueue_postcondition (w : World) (text : string) (value : Z) :
  reachable w ->
  parseInt text = Some value ->
  size (queueOf w) < maxSize (queueOf w) ->
  let q := queueOf w in
  let w' := enqueueOp text w in
  let q' := queueOf w' in
  let newRear := (rear q + 1) mod maxSize q in
  rear q' = newRear /\
  (size q = 0 -> newRear = front q) /\
  js_get (data q') newRear = JNum value /\
  size q' = size q + 1 /\
  (forall i, i <> newRear -> js_get (data q') i = js_get (data q) i) /\
  length (data q') = length (data q) /\
  front q' = front q /\
  maxSize q' = maxSize q /\
  statusMessage (component w') = MsgEnqueued value newRear /\
  animatingIndex (component w') = Some newRear.
Proof.
  intros Hreach Hparse Hroom q w' q' newRear.
  assert (Hlive : live q).
  { apply wfQueue_room; [now apply reachable_wf | assumption]. }
  destruct (enqueue_accepts (update (setInputValue text) w) value Hparse Hroom)
    as (Hq & Hmsg & Hanim & _).
  change (queueOf (update (setInputValue text) w)) with q in *.
  change (enqueue (update (setInputValue text) w)) with w' in *.
  fold q' in Hq.
  pose proof (newRear_mod q Hlive) as Hmod. fold newRear in Hmod.
  pose proof (newRear_inside q Hlive) as Hin.
  rewrite Hmod in *. rewrite Hq. unfold enqueueState. rewrite Hmod. simpl.
  repeat split; try assumption; try reflexivity.
  - intros Hempty. unfold newRear. rewrite (live_ring q Hlive), Hempty.
    apply ring_start, Hlive.
  - now apply js_get_set_eq.
  - intros i Hi. now apply js_get_set_ne.
  - now apply length_js_set.
Qed.

(** C3. On a reachable queue with [size > 0], a dequeue reports the value in
    the cell at [front] (a number), leaves null in that cell, moves [front]
    to [(front + 1) mod maxSize], takes one from [size], and leaves every
    other cell, [rear] and [maxSize] as they were. *)
Theorem dequeue_postcondition (w : World) :
  reachable w ->
  0 < size (queueOf w) ->
  let q := queueOf w in
  let w' := dequeueOp w in
  let q' := queueOf w' in
  statusMessage (component w') = MsgDequeued (js_get (data q) (front q)) /\
  (exists value, js_get (data q) (front q) = JNum value) /\
  js_get (data q') (front q) = JNull /\
  front q' = (front q + 1) mod maxSize q /\
  size q' = size q - 1 /\
  (forall i, i <> front q -> js_get (data q') i = js_get (data q) i) /\
  length (data q') = length (data q) /\
  rear q' = rear q /\
  maxSize q' = maxSize q.
Proof.
  intros Hreach Hpos q w' q'.
  assert (Hsome : size (queueOf w) <> 0) by lia.
  destruct (wfQueue_some q (reachable_wf w Hreach) Hsome) as [Hlive _].
  destruct (dequeueOp_accepts w Hsome) as (Hq & Hmsg & _).
  fold w' in Hq, Hmsg. fold q' in Hq. fold q in Hq, Hmsg.
  pose proof (front_inside q Hlive Hpos) as Hin.
  rewrite Hq. unfold dequeueState. simpl.
  repeat split; try assumption; try reflexivity.
  - exact (front_was_used q Hlive Hpos).
  - exact (js_get_set_eq _ _ _ Hin).
  - exact (newFront_mod q Hlive).
  - intros i Hi. exact (js_get_set_ne _ _ _ Hin i Hi).
  - exact (length_js_set _ _ _ Hin).
Qed.

Lemma enqueue_postcondition_witness :
  let w := run [ChangeQueueSize "3"; ClickCreate] initialWorld in
  reachable w /\ parseInt "7" = Some 7 /\
  size (queueOf w) < maxSize (queueOf w) /\
  rear (queueOf (enqueueOp "7" w)) = (rear (queueOf w) + 1) mod maxSize (queueOf w).
Proof.
  intros w.
  assert (Hreach : reachable w) by (eexists; reflexivity).
  assert (Hparse : parseInt "7" = Some 7) by reflexivity.
  assert (Hroom : size (queueOf w) < maxSize (queueOf w)) by reflexivity.
  refine (conj Hreach (conj Hparse (conj Hroom _))).
  exact (proj1 (enqueue_postcondition w "7" 7 Hreach Hparse Hroom)).
Defined.

Lemma dequeue_postcondition_witness :
  let w := run [ChangeQueueSize "3"; ClickCreate;
                ChangeInputValue "7"; ClickEnqueue] initialWorld in
  reachable w /\ 0 < size (queueOf w) /\
  statusMessage (component (dequeueOp w))
    = MsgDequeued (js_get (data (queueOf w)) (front (queueOf w))).
Proof.
  intros w.
  assert (Hreach : reachable w) by (eexists; reflexivity).
  assert (Hpos : 0 < size (queueOf w)) by reflexivity.
  refine (conj Hreach (conj Hpos _)).
  exact (proj1 (dequeue_postcondition w Hreach Hpos)).
Defined.

(** ** Rejections *)

(** C4. On a reachable queue, enqueueing a number is turned down with the
    queue-full message exactly when [size = maxSize], and then the world is
    the one before the call but for the text typed and that message: the
    queue state, the highlighted index and the timers are untouched. *)
Theorem enqueue_full_rejection (w : World) (text : string) (value : Z) :
  reachable w ->
  parseInt text = Some value ->
  let w' := enqueueOp text w in
  (statusMessage (component w') = MsgQueueFull
   <-> size (queueOf w) = maxSize (queueOf w)) /\
  (size (queueOf w) = maxSize (queueOf w) ->
   w' = update (setStatusMessage MsgQueueFull) (update (setInputValue text) w) /\
   queueOf w' = queueOf w).
Proof.
  intros Hreach Hparse w'.
  pose proof (wfQueue_bounds _ (reachable_wf w Hreach)) as Hbound.
  assert (Hfull : size (queueOf w) = maxSize (queueOf w) ->
                  w' = update (setStatusMessage MsgQueueFull)
                         (update (setInputValue text) w)).
  { intros E. unfold w', enqueueOp.
    apply (enqueue_rejects _ value); [exact Hparse|].
    change (queueOf (update (setInputValue text) w)) with (queueOf w). lia. }
  split; [split|].
  - intros Hmsg.
    destruct (Z.eq_dec (size (queueOf w)) (maxSize (queueOf w))) as [E|Hne];
      [exact E|].
    destruct (enqueue_accepts (update (setInputValue text) w) value Hparse)
      as (_ & Hmsg' & _).
    { change (queueOf (update (setInputValue text) w)) with (queueOf w). lia. }
    fold (enqueueOp text w) in Hmsg'. fold w' in Hmsg'. congruence.
  - intros E. rewrite (Hfull E). reflexivity.
  - intros E. rewrite (Hfull E). split; reflexivity.
Qed.

Lemma enqueue_full_rejection_witness :
  let w := run [ChangeQueueSize "2"; ClickCreate;
                ChangeInputValue "5"; ClickEnqueue;
                ChangeInputValue "6"; ClickEnqueue] initialWorld in
  reachable w /\ parseInt "9" = Some 9 /\
  (statusMessage (component (enqueueOp "9" w)) = MsgQueueFull
   <-> size (queueOf w) = maxSize (queueOf w)).
Proof.
  intros w.
  assert (Hreach : reachable w) by (eexists; reflexivity).
  assert (Hparse : parseInt "9" = Some 9) by reflexivity.
  refine (conj Hreach (conj Hparse _)).
  exact (proj1 (enqueue_full_rejection w "9" 9 Hreach Hparse)).
Defined.

Lemma used_cell q k :
  live q -> 0 <= k < size q ->
  exists value, js_get (data q) ((front q + k) mod maxSize q) = JNum value.
Proof. intros H. apply H. Qed.

(** C5. On a reachable queue, [dequeue], [getFront] and [getRear] answer
    with their queue-empty message exactly when [size = 0], and then change
    nothing but the status message.  When [size > 0], [getFront] reports the
    value in the cell at [front] and [getRear] the value in the cell at
    [rear], both numbers, and again only the status message changes. *)
Theorem empty_rejection_and_peeks (w : World) :
  reachable w ->
  let q := queueOf w in
  (statusMessage (component (dequeueOp w)) = MsgQueueEmpty <-> size q = 0) /\
  (statusMessage (component (getFront w)) = MsgNoFront <-> size q = 0) /\
  (statusMessage (component (getRear w)) = MsgNoRear <-> size q = 0) /\
  (size q = 0 ->
   dequeueOp w = update (setStatusMessage MsgQueueEmpty) w /\
   getFront w = update (setStatusMessage MsgNoFront) w /\
   getRear w = update (setStatusMessage MsgNoRear) w) /\
  (0 < size q ->
   getFront w
     = update (setStatusMessage (MsgFront (js_get (data q) (front q)))) w /\
   getRear w
     = update (setStatusMessage (MsgRear (js_get (data q) (rear q)))) w /\
   (exists a, js_get (data q) (front q) = JNum a) /\
   (exists b, js_get (data q) (rear q) = JNum b)) /\
  queueOf (getFront w) = q /\
  queueOf (getRear w) = q.
Proof.
  intros Hreach q.
  pose proof (reachable_invariant w Hreach) as (Hwf & _ & Hids).
  fold q in Hwf.
  destruct (Z.eq_dec (size q) 0) as [E|Hne].
  - assert (Hd : dequeueOp w = update (setStatusMessage MsgQueueEmpty) w)
      by now apply dequeueOp_rejects.
    assert (Hf : getFront w = update (setStatusMessage MsgNoFront) w).
    { unfold getFront. fold (queueOf w). fold q. now rewrite E. }
    assert (Hr : getRear w = update (setStatusMessage MsgNoRear) w).
    { unfold getRear. fold (queueOf w). fold q. now rewrite E. }
    rewrite Hd, Hf, Hr. repeat split; try reflexivity; try assumption; lia.
  - destruct (wfQueue_some q Hwf Hne) as [Hlive Hpos].
    destruct (dequeueOp_accepts w Hne) as (_ & Hd & _).
    assert (Hf : getFront w
              = update (setStatusMessage (MsgFront (js_get (data q) (front q)))) w).
    { unfold getFront. fold (queueOf w). fold q.
      destruct (Z.eqb_spec (size q) 0); [contradiction | reflexivity]. }
    assert (Hr : getRear w
              = update (setStatusMessage (MsgRear (js_get (data q) (rear q)))) w).
    { unfold getRear. fold (queueOf w). fold q.
      destruct (Z.eqb_spec (size q) 0); [contradiction | reflexivity]. }
    rewrite Hd, Hf, Hr. cbn [update component statusMessage setStatusMessage].
    repeat split; try reflexivity; try discriminate; try contradiction;
      try (intros; lia).
    + exact (front_was_used q Hlive Hpos).
    + rewrite (rear_of_ring q Hlive Hpos).
      replace (front q + size q - 1) with (front q + (size q - 1)) by lia.
      apply used_cell; [exact Hlive | lia].
Qed.

Lemma empty_rejection_and_peeks_witness :
  let w := run [ChangeQueueSize "4"; ClickCreate] initialWorld in
  reachable w /\
  (statusMessage (component (dequeueOp w)) = MsgQueueEmpty
   <-> size (queueOf w) = 0).
Proof.
  intros w.
  assert (Hreach : reachable w) by (eexists; reflexivity).
  split; [exact Hreach|].
  exact (proj1 (empty_rejection_and_peeks w Hreach)).
Defined.

Lemma enqueueOp_no_capacity w text :
  maxSize (queueOf w) = 0 -> size (queueOf w) = 0 ->
  queueOf (enqueueOp text w) = queueOf w.
Proof.
  intros Hmax Hsize. unfold enqueueOp, enqueue.
  destruct (parseInt _); [|reflexivity].
  change (queueState (component (update (setInputValue text) w)))
    with (queueOf w).
  rewrite Hmax, Hsize. reflexivity.
Qed.

(** C10. On a world whose queue state is the uninitialized one ([maxSize = 0]
    and [size = 0], as at creation and after [resetQueue]), enqueueing any
    number is turned down by the full-queue check and the queue state stays
    as it was; so a run of enqueues from creation stores nothing. *)
Theorem enqueue_before_initialize (w : World) (text : string) (value : Z) :
  maxSize (queueOf w) = 0 ->
  size (queueOf w) = 0 ->
  parseInt text = Some value ->
  queueOf initialWorld = emptyQueueState /\
  queueOf (resetQueue w) = emptyQueueState /\
  maxSize emptyQueueState = 0 /\ size emptyQueueState = 0 /\
  enqueueOp text w
    = update (setStatusMessage MsgQueueFull) (update (setInputValue text) w) /\
  queueOf (enqueueOp text w) = queueOf w /\
  (forall texts : list string,
     queueOf (performAll (map Enqueue texts) initialWorld) = emptyQueueState).
Proof.
  intros Hmax Hsize Hparse.
  pose proof enqueueOp_no_capacity as Hrej.
  repeat split.
  - unfold enqueueOp. apply (enqueue_rejects _ value); [exact Hparse|].
    change (queueOf (update (setInputValue text) w)) with (queueOf w). lia.
  - now apply Hrej.
  - intros texts.
    assert (Hall : forall w0, queueOf w0 = emptyQueueState ->
              queueOf (performAll (map Enqueue texts) w0) = emptyQueueState).
    { induction texts as [|t texts IH]; intros w0 H0; [exact H0|].
      simpl. apply IH. rewrite Hrej; [exact H0 | now rewrite H0 ..]. }
    now apply Hall.
Qed.

Lemma enqueue_before_initialize_witness :
  maxSize (queueOf initialWorld) = 0 /\
  size (queueOf initialWorld) = 0 /\
  parseInt "42" = Some 42 /\
  queueOf (enqueueOp "42" initialWorld) = queueOf initialWorld.
Proof.
  assert (Hmax : maxSize (queueOf initialWorld) = 0) by reflexivity.
  assert (Hsize : size (queueOf initialWorld) = 0) by reflexivity.
  assert (Hparse : parseInt "42" = Some 42) by reflexivity.
  refine (conj Hmax (conj Hsize (conj Hparse _))).
  apply (enqueue_before_initialize initialWorld "42" 42 Hmax Hsize Hparse).
Defined.

(** ** Scenarios *)

(** C7. With capacity 3: after enqueueing 1, 2 and 3 the queue is full; a
    dequeue then reports 1 and [front] becomes 1; enqueueing 4 then succeeds,
    stores 4 in cell 0, and the queue is full again. *)
Theorem wraparound_scenario :
  let w0 := initializeOp "3" initialWorld in
  let w3 := enqueueOp "3" (enqueueOp "2" (enqueueOp "1" w0)) in
  let w4 := dequeueOp w3 in
  let w5 := enqueueOp "4" w4 in
  queueOf w3 = {| data := [JNum 1; JNum 2; JNum 3];
                  front := 0; rear := 2; size := 3; maxSize := 3 |} /\
  statusMessage (component (checkIsFull w3)) = MsgIsFull true /\
  statusMessage (component w4) = MsgDequeued (JNum 1) /\
  front (queueOf w4) = 1 /\
  statusMessage (component (checkIsFull w4)) = MsgIsFull false /\
  statusMessage (component w5) = MsgEnqueued 4 0 /\
  render (statusMessage (component w5)) = "Enqueued 4 at position 0" /\
  queueOf w5 = {| data := [JNum 4; JNum 2; JNum 3];
                  front := 1; rear := 0; size := 3; maxSize := 3 |} /\
  statusMessage (component (checkIsFull w5)) = MsgIsFull true.
Proof. vm_compute. repeat split. Qed.

(** C9, as amended. On a reachable queue with [size = 1], a dequeue leaves
    [size = 0] and does not touch [rear]: it keeps the index of the cell just
    emptied (the old [front]), not the -1 of a freshly created queue, and the
    next enqueue goes to [(rear + 1) mod maxSize], which is the new [front].
    While the queue is empty no cell is marked as the rear. *)
Theorem rear_kept_on_emptying (w : World) :
  reachable w ->
  size (queueOf w) = 1 ->
  let q := queueOf w in
  let q' := queueOf (dequeueOp w) in
  size q' = 0 /\
  rear q' = rear q /\
  rear q = front q /\
  0 <= rear q' /\
  (rear q' + 1) mod maxSize q' = front q' /\
  (forall index, marksRear q' index = false).
Proof.
  intros Hreach Hone q q'.
  assert (Hsome : size (queueOf w) <> 0) by lia.
  assert (Hpos : 0 < size q) by (unfold q; lia).
  destruct (wfQueue_some q (reachable_wf w Hreach) Hsome) as [Hlive _].
  destruct (dequeueOp_accepts w Hsome) as (Hq & _).
  fold q' in Hq. fold q in Hq.
  pose proof (live_dequeue q Hlive Hpos) as Hlive'. rewrite <- Hq in Hlive'.
  assert (Hrear : rear q = front q).
  { rewrite (rear_of_ring q Hlive Hpos). unfold q. rewrite Hone. fold q.
    replace (front q + 1 - 1) with (front q + 0) by lia.
    apply ring_start, Hlive. }
  assert (Hsize : size q' = 0) by (rewrite Hq; simpl; unfold q; lia).
  assert (Hkeep : rear q' = rear q) by (rewrite Hq; reflexivity).
  repeat split; try assumption.
  - rewrite Hkeep, Hrear. apply Hlive.
  - rewrite (live_ring q' Hlive'), Hsize.
    apply ring_start, Hlive'.
  - intros index. unfold marksRear. rewrite Hsize. apply andb_false_r.
Qed.

Lemma rear_kept_on_emptying_witness :
  let w := enqueueOp "7" (initializeOp "3" initialWorld) in
  reachable w /\ size (queueOf w) = 1 /\
  rear (queueOf (dequeueOp w)) = rear (queueOf w).
Proof.
  intros w.
  assert (Hreach : reachable w).
  { exists [ChangeQueueSize "3"; ClickCreate; ChangeInputValue "7"; ClickEnqueue].
    reflexivity. }
  assert (Hone : size (queueOf w) = 1) by reflexivity.
  refine (conj Hreach (conj Hone _)).
  exact (proj1 (proj2 (rear_kept_on_emptying w Hreach Hone))).
Defined.

(** C9, as stated, fails: with capacity 3, after one enqueue and one dequeue
    the queue is empty and [rear] is 0, not the -1 a freshly created queue
    has. *)
Lemma rear_not_reset_on_emptying :
  let w0 := initializeOp "3" initialWorld in
  let w := enqueueOp "7" w0 in
  rear (queueOf w0) = -1 /\
  size (queueOf w) = 1 /\
  statusMessage (component (dequeueOp w)) = MsgDequeued (JNum 7) /\
  size (queueOf (dequeueOp w)) = 0 /\
  rear (queueOf (dequeueOp w)) = 0 /\
  rear (queueOf (dequeueOp w)) <> -1.
Proof. vm_compute. repeat split. discriminate. Qed.

(** ** Creating the queue *)

Lemma initializeOp_rejects w text :
  match parseInt text with
  | None => True
  | Some n => n <= 0 \/ 20 < n
  end ->
  rejectsCapacity text w.
Proof.
  unfold rejectsCapacity, initializeOp, initializeQueue.
  cbn [update component queueSize setQueueSize].
  destruct (parseInt text) as [n|]; [|reflexivity].
  intros [H|H].
  - destruct (Z.leb_spec n 0); [reflexivity | lia].
  - destruct (Z.ltb_spec 20 n); [|lia]. now rewrite orb_true_r.
Qed.

Lemma initializeOp_accepts w text n :
  parseInt text = Some n -> 1 <= n <= 20 ->
  queueOf (initializeOp text w)
    = {| data := replicate (Z.to_nat n) JNull;
         front := 0; rear := -1; size := 0; maxSize := n |} /\
  isInitialized (component (initializeOp text w)) = true /\
  statusMessage (component (initializeOp text w)) = MsgInitialized n.
Proof.
  intros Hparse Hn. unfold initializeOp, initializeQueue.
  cbn [update component queueSize setQueueSize]. rewrite Hparse.
  destruct (Z.leb_spec n 0); [lia|].
  destruct (Z.ltb_spec 20 n); [lia|].
  repeat split.
Qed.

(** C8, as amended. [initializeQueue] turns a capacity text down exactly when
    [parseInt] reads it as no number, as a number [<= 0], or as a number
    above 20; so 0 and -1 are turned down.  A text that is not an integer is
    read up to its first non-digit ("1.5" as 1) and judged by that.  Capacity
    1 is accepted and gives a one-cell queue: an enqueue fills it, and the
    dequeue after that reports the value and leaves it empty. *)
Theorem capacity_boundary :
  (forall w text,
     rejectsCapacity text w <->
     match parseInt text with
     | None => True
     | Some n => n <= 0 \/ 20 < n
     end) /\
  rejectsCapacity "0" initialWorld /\
  rejectsCapacity "-1" initialWorld /\
  let w1 := initializeOp "1" initialWorld in
  queueOf w1 = {| data := [JNull];
                  front := 0; rear := -1; size := 0; maxSize := 1 |} /\
  isInitialized (component w1) = true /\
  forall text value,
    parseInt text = Some value ->
    let w2 := enqueueOp text w1 in
    let w3 := dequeueOp w2 in
    queueOf w2 = {| data := [JNum value];
                    front := 0; rear := 0; size := 1; maxSize := 1 |} /\
    statusMessage (component (checkIsFull w2)) = MsgIsFull true /\
    statusMessage (component w3) = MsgDequeued (JNum value) /\
    queueOf w3 = {| data := [JNull];
                    front := 0; rear := 0; size := 0; maxSize := 1 |} /\
    statusMessage (component (checkIsEmpty w3)) = MsgIsEmpty true.
Proof.
  split; [|split; [|split; [|split; [|split]]]].
  - intros w text. split; [|apply initializeOp_rejects].
    intros Hrej. destruct (parseInt text) as [n|] eqn:Hparse; [|exact I].
    destruct (Z.le_gt_cases n 0) as [H0|H0]; [now left|].
    destruct (Z.le_gt_cases n 20) as [H20|H20]; [|right; lia].
    destruct (initializeOp_accepts w text n Hparse) as (_ & _ & Hmsg); [lia|].
    unfold rejectsCapacity in Hrej. rewrite Hrej in Hmsg. discriminate.
  - apply initializeOp_rejects. change (0 <= 0 \/ 20 < 0). lia.
  - apply initializeOp_rejects. change (-1 <= 0 \/ 20 < -1). lia.
  - reflexivity.
  - reflexivity.
  - intros text value Hparse w2 w3.
    assert (Hq2 : queueOf w2 = {| data := [JNum value]; front := 0; rear := 0;
                                  size := 1; maxSize := 1 |}).
    { destruct (enqueue_accepts
                  (update (setInputValue text) (initializeOp "1" initialWorld))
                  value Hparse) as (Hq & _); [reflexivity | exact Hq]. }
    assert (Hsome : size (queueOf w2) <> 0) by (rewrite Hq2; simpl; lia).
    destruct (dequeueOp_accepts w2 Hsome) as (Hq3 & Hmsg3 & _).
    fold w3 in Hq3, Hmsg3. rewrite Hq2 in Hq3, Hmsg3.
    split; [exact Hq2 | split; [| split; [exact Hmsg3 | split; [exact Hq3 |]]]].
    + unfold checkIsFull. cbn [update component statusMessage setStatusMessage].
      fold (queueOf w2). now rewrite Hq2.
    + unfold checkIsEmpty. cbn [update component statusMessage setStatusMessage].
      fold (queueOf w3). now rewrite Hq3.
Qed.

Lemma capacity_boundary_witness :
  parseInt "8" = Some 8 /\
  statusMessage
    (component (dequeueOp (enqueueOp "8" (initializeOp "1" initialWorld))))
  = MsgDequeued (JNum 8).
Proof.
  assert (Hparse : parseInt "8" = Some 8) by reflexivity.
  refine (conj Hparse _).
  pose proof capacity_boundary as (_ & _ & _ & _ & _ & Hslot).
  exact (proj1 (proj2 (proj2 (Hslot "8" 8 Hparse)))).
Defined.

(** C8, as stated, fails for a capacity that is not an integer: "1.5" is read
    as 1 and a one-cell queue is created. *)
Lemma fractional_capacity_accepted :
  parseInt "1.5" = Some 1 /\
  isInitialized (component (initializeOp "1.5" initialWorld)) = true /\
  statusMessage (component (initializeOp "1.5" initialWorld)) = MsgInitialized 1 /\
  maxSize (queueOf (initializeOp "1.5" initialWorld)) = 1 /\
  ~ rejectsCapacity "1.5" initialWorld.
Proof.
  repeat split. unfold rejectsCapacity. vm_compute. discriminate.
Qed.

(** ** First in, first out *)

Lemma contents_enqueue q value :
  live q -> size q < maxSize q ->
  contents (enqueueState value q) = (contents q ++ [JNum value])%list.
Proof.
  intros Hlive Hroom. unfold contents, enqueueState. simpl.
  pose proof (newRear_inside q Hlive) as Hin.
  pose proof (newRear_ring q Hlive) as Hring.
  pose proof (live_size q Hlive) as Hsize.
  replace (Z.to_nat (size q + 1)) with (S (Z.to_nat (size q))) by lia.
  rewrite List.seq_S, List.map_app. simpl. f_equal.
  - apply List.map_ext_in. intros k Hk. apply List.in_seq in Hk.
    apply js_get_set_ne; [exact Hin|].
    apply newRear_other; [exact Hlive | exact Hroom | lia | lia].
  - rewrite Z2Nat.id by lia. rewrite <- Hring.
    now rewrite js_get_set_eq.
Qed.

Lemma contents_dequeue q :
  live q -> 0 < size q ->
  contents q = js_get (data q) (front q) :: contents (dequeueState q).
Proof.
  intros Hlive Hpos. unfold contents, dequeueState. simpl.
  pose proof (front_inside q Hlive Hpos) as Hin.
  pose proof (live_size q Hlive) as Hsize.
  pose proof (live_front q Hlive) as Hfront.
  replace (Z.to_nat (size q)) with (S (Z.to_nat (size q - 1))) by lia.
  simpl. f_equal.
  - f_equal. now apply ring_start.
  - rewrite <- List.seq_shift, List.map_map.
    apply List.map_ext_in. intros k Hk. apply List.in_seq in Hk.
    rewrite (newFront_mod q Hlive), ring_next by lia.
    rewrite js_get_set_ne; [|exact Hin|apply (front_other q Hlive); lia].
    do 2 f_equal. lia.
Qed.

Lemma contents_empty q : size q = 0 -> contents q = [].
Proof. intros H. unfold contents. now rewrite H. Qed.

Lemma fifo_run ops : forall w,
  reachable w -> legal ops w = true ->
  (contents (queueOf w) ++ enqueuedValues ops)%list
  = (dequeuedValues ops w ++ contents (queueOf (performAll ops w)))%list /\
  length (dequeuedValues ops w) = dequeueCalls ops.
Proof.
  induction ops as [|op ops IH]; intros w Hreach Hlegal.
  - simpl. now rewrite app_nil_r.
  - simpl in Hlegal. apply andb_prop in Hlegal as [Hperm Hrest].
    pose proof (reachable_wf w Hreach) as Hwf.
    destruct (IH (perform w op) (reachable_perform w op Hreach) Hrest)
      as [Hfifo Hcount].
    destruct op as [text|]; simpl in *.
    + destruct (parseInt text) as [value|] eqn:Hparse; [|discriminate].
      apply Z.ltb_lt in Hperm.
      destruct (enqueue_accepts (update (setInputValue text) w) value Hparse Hperm)
        as (Hq & _).
      fold (enqueueOp text w) in Hq.
      change (queueOf (update (setInputValue text) w)) with (queueOf w) in Hq.
      rewrite Hq, contents_enqueue in Hfifo
        by (try apply wfQueue_room; assumption).
      rewrite <- app_assoc in Hfifo. simpl in Hfifo. auto.
    + apply Z.ltb_lt in Hperm.
      assert (Hsome : size (queueOf w) <> 0) by lia.
      destruct (wfQueue_some _ Hwf Hsome) as [Hlive _].
      destruct (dequeueOp_accepts w Hsome) as (Hq & Hmsg & _).
      unfold reported. rewrite Hmsg. simpl.
      rewrite Hq in Hfifo.
      rewrite (contents_dequeue (queueOf w) Hlive Hperm). simpl.
      rewrite Hfifo. auto.
Qed.

Lemma reachable_state_invariant_witness :
  let q := queueOf (run [ChangeQueueSize "3"; ClickCreate;
                         ChangeInputValue "4"; ClickEnqueue;
                         ChangeInputValue "5"; ClickEnqueue;
                         ClickDequeue; TimerFires 3] initialWorld) in
  0 < size q /\ rear q = (front q + size q - 1) mod maxSize q.
Proof.
  intros q.
  assert (Hpos : 0 < size q) by reflexivity.
  refine (conj Hpos _).
  exact (proj2 (proj2 (reachable_state_invariant
                         [ChangeQueueSize "3"; ClickCreate;
                          ChangeInputValue "4"; ClickEnqueue;
                          ChangeInputValue "5"; ClickEnqueue;
                          ClickDequeue; TimerFires 3])) Hpos).
Defined.

(** ** Clicks that overlap a pending dequeue

    The laws above take a dequeue as the click together with its timer.  The
    timer sets the queue state computed from the state at the click, so a
    click that comes before the timer has fired works on the old state: two
    clicks on Dequeue in a row report the same value and remove one element,
    and an enqueue made in between is overwritten. *)
Example overlapping_dequeues :
  let w := run [ChangeQueueSize "3"; ClickCreate;
                ChangeInputValue "1"; ClickEnqueue;
                ChangeInputValue "2"; ClickEnqueue;
                ClickDequeue; ClickDequeue] initialWorld in
  let w1 := step w (TimerFires 3) in
  let w2 := step w1 (TimerFires 4) in
  statusMessage (component w1) = MsgDequeued (JNum 1) /\
  statusMessage (component w2) = MsgDequeued (JNum 1) /\
  queueOf w2 = {| data := [JNull; JNum 2; JNull];
                  front := 1; rear := 1; size := 1; maxSize := 3 |}.
Proof. vm_compute. repeat split. Qed.

Example enqueue_during_dequeue :
  let w := run [ChangeQueueSize "3"; ClickCreate;
                ChangeInputValue "1"; ClickEnqueue;
                ClickDequeue;
                ChangeInputValue "2"; ClickEnqueue] initialWorld in
  queueOf w = {| data := [JNum 1; JNum 2; JNull];
                 front := 0; rear := 1; size := 2; maxSize := 3 |} /\
  queueOf (step w (TimerFires 2))
  = {| data := [JNull; JNull; JNull];
       front := 1; rear := 0; size := 0; maxSize := 3 |}.
Proof. vm_compute. repeat split. Qed.


(** * Further properties *)

(** ** The shape of the queue state *)

Lemma ring_cover f i m :
  0 <= i < m -> (f + (i - f) mod m) mod m = i.
Proof.
  intros Hi. rewrite Z.add_mod_idemp_r by lia.
  replace (f + (i - f)) with i by lia. apply Z.mod_small. lia.
Qed.

Lemma live_cell q i :
  live q -> 0 <= i < maxSize q ->
  js_get (data q) i = JNull \/ exists v, js_get (data q) i = JNum v.
Proof.
  intros Hlive Hi.
  pose proof (Z.mod_pos_bound (i - front q) (maxSize q) ltac:(lia)) as Hk.
  rewrite <- (ring_cover (front q) i (maxSize q) Hi).
  destruct (Z.lt_ge_cases ((i - front q) mod maxSize q) (size q)) as [Hlt|Hge].
  - right. apply (live_used q Hlive). lia.
  - left. apply (live_free q Hlive). lia.
Qed.

(** X1. The array always has [maxSize] cells, [maxSize] is 0 (no queue) or
    between 1 and 20, and [front] and [rear] stay inside the array, [rear]
    being -1 only on a queue nothing was enqueued to. *)
Theorem queue_shape (events : list Event) :
  let q := queueOf (run events initialWorld) in
  Z.of_nat (length (data q)) = maxSize q /\
  (q = emptyQueueState \/
   1 <= maxSize q <= 20 /\
   0 <= front q < maxSize q /\
   -1 <= rear q < maxSize q /\
   (rear q = -1 -> size q = 0 /\ front q = 0)).
Proof.
  intros q.
  assert (Hwf : wfQueue q) by (apply reachable_wf; now exists events).
  destruct Hwf as [E|Hlive].
  - rewrite E. split; [reflexivity | now left].
  - split; [apply Hlive|]. right.
    split; [apply Hlive | split; [apply Hlive | split; [apply Hlive|]]].
    intros Hrear. pose proof (live_fresh q Hlive Hrear) as Hsize.
    split; [exact Hsize|].
    pose proof (live_ring q Hlive) as Hring.
    rewrite Hrear, Hsize in Hring.
    rewrite ring_start in Hring by apply Hlive.
    rewrite <- Hring. apply Z.mod_0_l. destruct Hlive. lia.
Qed.

Lemma queue_shape_witness :
  let q := queueOf (run [ChangeQueueSize "3"; ClickCreate] initialWorld) in
  rear q = -1 /\ size q = 0 /\ front q = 0.
Proof.
  intros q.
  assert (Hrear : rear q = -1) by reflexivity.
  refine (conj Hrear _).
  destruct (queue_shape [ChangeQueueSize "3"; ClickCreate]) as [_ [E|H]].
  - exact (conj (f_equal size E) (f_equal front E)).
  - exact (proj2 (proj2 (proj2 H)) Hrear).
Defined.

(** X2. The cells reached from [front] in [size] steps hold numbers, the other
    cells hold null, and no cell of the array is ever undefined. *)
Theorem cells_follow_ring (events : list Event) :
  let q := queueOf (run events initialWorld) in
  (forall k, 0 <= k < size q ->
     exists v, js_get (data q) ((front q + k) mod maxSize q) = JNum v) /\
  (forall k, size q <= k < maxSize q ->
     js_get (data q) ((front q + k) mod maxSize q) = JNull) /\
  (forall i, 0 <= i < maxSize q -> js_get (data q) i <> JUndefined).
Proof.
  intros q.
  assert (Hwf : wfQueue q) by (apply reachable_wf; now exists events).
  destruct Hwf as [E|Hlive].
  - rewrite E. simpl. repeat split; intros; lia.
  - repeat split; try apply Hlive.
    intros i Hi. destruct (live_cell q i Hlive Hi) as [H|[v H]];
      rewrite H; discriminate.
Qed.

Lemma cells_follow_ring_witness :
  let q := queueOf (run [ChangeQueueSize "3"; ClickCreate;
                         ChangeInputValue "8"; ClickEnqueue] initialWorld) in
  0 <= 0 < size q /\
  exists v, js_get (data q) ((front q + 0) mod maxSize q) = JNum v.
Proof.
  intros q.
  assert (Hk : 0 <= 0 < size q) by (split; [discriminate | reflexivity]).
  refine (conj Hk _).
  exact (proj1 (cells_follow_ring
                  [ChangeQueueSize "3"; ClickCreate;
                   ChangeInputValue "8"; ClickEnqueue]) 0 Hk).
Defined.

Lemma Forall_js_get (P : jsval -> Prop) (d : list jsval) :
  Forall P d <-> (forall i, 0 <= i < Z.of_nat (length d) -> P (js_get d i)).
Proof.
  rewrite Forall_lookup. split.
  - intros H i Hi. unfold js_get. destruct (Z.ltb_spec i 0); [lia|].
    destruct (lookup_lt_is_Some_2 d (Z.to_nat i)) as [x Hx]; [lia|].
    rewrite Hx. exact (H _ _ Hx).
  - intros H n x Hx. pose proof (lookup_lt_Some _ _ _ Hx) as Hn.
    specialize (H (Z.of_nat n) ltac:(lia)). unfold js_get in H.
    destruct (Z.ltb_spec (Z.of_nat n) 0); [lia|].
    now rewrite Nat2Z.id, Hx in H.
Qed.

(** ** What the inspections report *)

(** X3. Is Empty? answers "empty" exactly when every cell of the array is null,
    and Is Full? answers "full" exactly when every cell holds a number. *)
Theorem empty_full_reports (events : list Event) :
  let w := run events initialWorld in
  (statusMessage (component (checkIsEmpty w)) = MsgIsEmpty true
   <-> Forall (eq JNull) (data (queueOf w))) /\
  (statusMessage (component (checkIsFull w)) = MsgIsFull true
   <-> Forall (fun v => exists n, v = JNum n) (data (queueOf w))).
Proof.
  intros w. set (q := queueOf w).
  assert (Hwf : wfQueue q) by (apply reachable_wf; now exists events).
  assert (HE : statusMessage (component (checkIsEmpty w)) = MsgIsEmpty true
               <-> size q = 0).
  { unfold checkIsEmpty. cbn [update component statusMessage setStatusMessage].
    fold (queueOf w). fold q. destruct (Z.eqb_spec (size q) 0); split;
      try congruence; intros [=]. }
  assert (HF : statusMessage (component (checkIsFull w)) = MsgIsFull true
               <-> maxSize q <= size q).
  { unfold checkIsFull. cbn [update component statusMessage setStatusMessage].
    fold (queueOf w). fold q. destruct (Z.leb_spec (maxSize q) (size q)); split;
      try congruence; try lia; intros [=]. }
  rewrite HE, HF, !Forall_js_get. clear HE HF.
  destruct Hwf as [E|Hlive]; [rewrite E; simpl; split; split; intros; lia|].
  pose proof (live_len q Hlive) as Hlen. rewrite Hlen.
  pose proof (live_size q Hlive) as Hsize.
  pose proof (live_cap q Hlive) as Hcap.
  pose proof (live_front q Hlive) as Hfront.
  split; split.
  - intros Hempty i Hi. symmetry.
    rewrite <- (ring_cover (front q) i (maxSize q) Hi).
    apply (live_free q Hlive).
    pose proof (Z.mod_pos_bound (i - front q) (maxSize q)). lia.
  - intros Hnull.
    destruct (Z.eq_dec (size q) 0) as [E|Hne]; [exact E|].
    destruct (front_was_used q Hlive ltac:(lia)) as [v Hv].
    specialize (Hnull (front q) Hfront). congruence.
  - intros Hfull i Hi.
    rewrite <- (ring_cover (front q) i (maxSize q) Hi).
    destruct (live_used q Hlive ((i - front q) mod maxSize q)) as [v Hv].
    + pose proof (Z.mod_pos_bound (i - front q) (maxSize q)). lia.
    + now exists v.
  - intros Hnum.
    destruct (Z.le_gt_cases (maxSize q) (size q)) as [H|H]; [exact H|].
    pose proof (live_free q Hlive (size q) ltac:(lia)) as Hfree.
    destruct (Hnum ((front q + size q) mod maxSize q)) as [n Hn].
    + apply Z.mod_pos_bound. lia.
    + congruence.
Qed.

Lemma contents_length q : length (contents q) = Z.to_nat (size q).
Proof. unfold contents. now rewrite length_map, length_seq. Qed.

Lemma contents_ends q :
  live q -> 0 < size q ->
  List.hd JNull (contents q) = js_get (data q) (front q) /\
  List.last (contents q) JNull = js_get (data q) (rear q).
Proof.
  intros Hlive Hpos. split.
  - rewrite (contents_dequeue q Hlive Hpos). reflexivity.
  - unfold contents.
    replace (Z.to_nat (size q)) with (S (Z.to_nat (size q - 1))) by lia.
    rewrite List.seq_S, List.map_app. simpl. rewrite List.last_last.
    rewrite (rear_of_ring q Hlive Hpos). do 2 f_equal. lia.
Qed.

(** X4. On a queue that is not empty, Get Front reports the first and Get Rear
    the last of the values met when walking [size] cells from [front]. *)
Theorem peeks_are_ends (w : World) :
  reachable w ->
  0 < size (queueOf w) ->
  statusMessage (component (getFront w))
    = MsgFront (List.hd JNull (contents (queueOf w))) /\
  statusMessage (component (getRear w))
    = MsgRear (List.last (contents (queueOf w)) JNull) /\
  length (contents (queueOf w)) = Z.to_nat (size (queueOf w)).
Proof.
  intros Hreach Hpos.
  assert (Hsome : size (queueOf w) <> 0) by lia.
  destruct (wfQueue_some _ (reachable_wf w Hreach) Hsome) as [Hlive _].
  destruct (contents_ends _ Hlive Hpos) as [Hhd Hlast].
  rewrite Hhd, Hlast.
  unfold getFront, getRear. fold (queueOf w).
  destruct (Z.eqb_spec (size (queueOf w)) 0); [contradiction|].
  repeat split. apply contents_length.
Qed.

Lemma peeks_are_ends_witness :
  let w := run [ChangeQueueSize "3"; ClickCreate;
                ChangeInputValue "8"; ClickEnqueue;
                ChangeInputValue "9"; ClickEnqueue] initialWorld in
  reachable w /\ 0 < size (queueOf w) /\
  statusMessage (component (getRear w))
    = MsgRear (List.last (contents (queueOf w)) JNull).
Proof.
  intros w.
  assert (Hreach : reachable w) by (eexists; reflexivity).
  assert (Hpos : 0 < size (queueOf w)) by reflexivity.
  refine (conj Hreach (conj Hpos _)).
  exact (proj1 (proj2 (peeks_are_ends w Hreach Hpos))).
Defined.

Lemma inspection_answer e :
  isInspection e = true ->
  exists answer : QueueState -> Message,
    forall w, step w e = update (setStatusMessage (answer (queueOf w))) w.
Proof.
  destruct e; try discriminate; intros _.
  - exists (fun q => if size q =? 0 then MsgNoFront
                     else MsgFront (js_get (data q) (front q))).
    intros w. unfold step, getFront, queueOf. now destruct (_ =? _).
  - exists (fun q => if size q =? 0 then MsgNoRear
                     else MsgRear (js_get (data q) (rear q))).
    intros w. unfold step, getRear, queueOf. now destruct (_ =? _).
  - exists (fun q => MsgIsEmpty (size q =? 0)). reflexivity.
  - exists (fun q => MsgIsFull (maxSize q <=? size q)). reflexivity.
  - exists (fun q => MsgSize (size q) (maxSize q)). reflexivity.
  - exists (fun _ => MsgReturning). reflexivity.
Qed.

(** X5. Get Front, Get Rear, Is Empty?, Is Full?, Show Size and Back change
    nothing but the status message: after any number of them the queue and
    the timers are as before, and the next one answers, and leaves the world,
    exactly as if none had been asked. *)
Theorem inspections_change_nothing (w : World) (events : list Event) (e : Event) :
  forallb isInspection events = true ->
  isInspection e = true ->
  queueOf (run events w) = queueOf w /\
  timers (run events w) = timers w /\
  step (run events w) e = step w e.
Proof.
  intros Hall He.
  assert (Hsame : forall m, update (setStatusMessage m) (run events w)
                            = update (setStatusMessage m) w).
  { revert w. induction events as [|e0 events IH]; intros w m; [reflexivity|].
    simpl in Hall. apply andb_prop in Hall as [H0 Hrest].
    simpl. rewrite (IH Hrest).
    destruct (inspection_answer e0 H0) as [answer Hans]. now rewrite Hans. }
  assert (Hq : queueOf (run events w) = queueOf w).
  { exact (f_equal queueOf (Hsame MsgSetSize)). }
  split; [exact Hq | split].
  - exact (f_equal timers (Hsame MsgSetSize)).
  - destruct (inspection_answer e He) as [answer Hans].
    now rewrite !Hans, Hq, Hsame.
Qed.

Lemma inspections_change_nothing_witness :
  let w := run [ChangeQueueSize "3"; ClickCreate;
                ChangeInputValue "8"; ClickEnqueue] initialWorld in
  step (run [ClickGetRear; ClickIsFull; ClickShowSize] w) ClickGetFront
  = step w ClickGetFront.
Proof.
  intros w.
  exact (proj2 (proj2 (inspections_change_nothing w
           [ClickGetRear; ClickIsFull; ClickShowSize] ClickGetFront
           eq_refl eq_refl))).
Defined.

(** ** How the operations compose *)

Lemma length_data_enqueueState q value :
  live q -> length (data (enqueueState value q)) = length (data q).
Proof. intros Hlive. apply length_js_set, newRear_inside, Hlive. Qed.

Lemma size_after_legal (ops : list Op) (w : World) :
  reachable w ->
  legal ops w = true ->
  size (queueOf (performAll ops w))
  = size (queueOf w) + Z.of_nat (enqueueCalls ops) - Z.of_nat (dequeueCalls ops).
Proof.
  revert w. induction ops as [|op ops IH]; intros w Hreach Hlegal;
    [simpl; lia|].
  simpl in Hlegal. apply andb_prop in Hlegal as [Hperm Hrest].
  simpl performAll.
  rewrite (IH (perform w op) (reachable_perform w op Hreach) Hrest).
  destruct op as [text|]; simpl in *.
  - destruct (parseInt text) as [value|] eqn:Hparse; [|discriminate].
    apply Z.ltb_lt in Hperm.
    destruct (enqueue_accepts (update (setInputValue text) w) value Hparse Hperm)
      as (Hq & _).
    fold (enqueueOp text w) in Hq. rewrite Hq. simpl.
    change (queueOf (update (setInputValue text) w)) with (queueOf w). lia.
  - apply Z.ltb_lt in Hperm.
    destruct (dequeueOp_accepts w) as (Hq & _); [lia|].
    rewrite Hq. simpl. lia.
Qed.

Lemma reachable_performAll ops : forall w,
  reachable w -> reachable (performAll ops w).
Proof.
  induction ops as [|op ops IH]; intros w Hreach; [exact Hreach|].
  simpl. apply IH. now apply reachable_perform.
Qed.

Lemma drain_legal : forall (n : nat) (w : World),
  size (queueOf w) = Z.of_nat n ->
  legal (repeat Dequeue n) w = true.
Proof.
  induction n as [|n IH]; intros w Hsize; [reflexivity|].
  simpl. apply andb_true_intro. split; [apply Z.ltb_lt; lia|].
  apply IH. destruct (dequeueOp_accepts w) as (Hq & _); [lia|].
  rewrite Hq. simpl. lia.
Qed.

Lemma enqueuedValues_drain n : enqueuedValues (repeat Dequeue n) = [].
Proof. induction n; [reflexivity | exact IHn]. Qed.

Lemma enqueueCalls_drain n : enqueueCalls (repeat Dequeue n) = 0%nat.
Proof. induction n; [reflexivity | exact IHn]. Qed.

Lemma dequeueCalls_drain n : dequeueCalls (repeat Dequeue n) = n.
Proof. induction n; [reflexivity | simpl; now f_equal]. Qed.

Lemma enqueue_dequeue_states q value :
  live q -> 0 < size q < maxSize q ->
  dequeueState (enqueueState value q) = enqueueState value (dequeueState q).
Proof.
  intros Hlive Hrange.
  pose proof (newRear_inside q Hlive) as Hin.
  pose proof (front_inside q Hlive ltac:(lia)) as Hfin.
  pose proof (newRear_ring q Hlive) as Hring.
  assert (Hne : js_rem (rear q + 1) (maxSize q) <> front q).
  { rewrite Hring. apply (front_other q Hlive); lia. }
  unfold dequeueState, enqueueState. simpl. f_equal; [|lia].
  rewrite (js_set_inside (data q) _ _ Hin), (js_set_inside (data q) _ _ Hfin).
  rewrite !js_set_inside by (rewrite length_insert; assumption).
  apply list_insert_insert_ne. lia.
Qed.

Lemma enqueue_dequeue_orders (w : World) (text : string) (value : Z) :
  reachable w ->
  parseInt text = Some value ->
  0 < size (queueOf w) < maxSize (queueOf w) ->
  queueOf (dequeueOp (enqueueOp text w)) = queueOf (enqueueOp text (dequeueOp w)) /\
  reported (dequeueOp (enqueueOp text w)) = reported (dequeueOp w).
Proof.
  intros Hreach Hparse Hrange.
  assert (Hsome : size (queueOf w) <> 0) by lia.
  destruct (wfQueue_some _ (reachable_wf w Hreach) Hsome) as [Hlive _].
  destruct (enqueue_accepts (update (setInputValue text) w) value Hparse)
    as (Hq1 & _); [apply Hrange|].
  fold (enqueueOp text w) in Hq1.
  change (queueOf (update (setInputValue text) w)) with (queueOf w) in Hq1.
  destruct (dequeueOp_accepts w Hsome) as (Hq2 & Hmsg2 & _).
  destruct (dequeueOp_accepts (enqueueOp text w)) as (Hq3 & Hmsg3 & _).
  { rewrite Hq1. simpl. lia. }
  destruct (enqueue_accepts (update (setInputValue text) (dequeueOp w)) value
              Hparse) as (Hq4 & _).
  { change (queueOf (update (setInputValue text) (dequeueOp w)))
      with (queueOf (dequeueOp w)). rewrite Hq2. simpl. lia. }
  fold (enqueueOp text (dequeueOp w)) in Hq4.
  change (queueOf (update (setInputValue text) (dequeueOp w)))
    with (queueOf (dequeueOp w)) in Hq4.
  split.
  - rewrite Hq3, Hq4, Hq1, Hq2. now apply enqueue_dequeue_states.
  - unfold reported. rewrite Hmsg3, Hmsg2, Hq1. simpl. f_equal.
    apply js_get_set_ne; [apply newRear_inside, Hlive|].
    rewrite (newRear_ring _ Hlive).
    intros E. symmetry in E. revert E. apply (front_other _ Hlive). lia.
Qed.









(** ** Clicks while a dequeue is pending *)

Lemma pending_dequeue_fires w id captured newData dequeuedValue :
  findTimer id (timers w) = Some (DequeueEnd captured newData dequeuedValue) ->
  queueOf (step w (TimerFires id))
    = {| data := newData;
         front := js_rem (front captured + 1) (maxSize captured);
         rear := rear captured;
         size := size captured - 1;
         maxSize := maxSize captured |} /\
  statusMessage (component (step w (TimerFires id))) = MsgDequeued dequeuedValue /\
  isInitialized (component (step w (TimerFires id))) = isInitialized (component w) /\
  animatingIndex (component (step w (TimerFires id))) = None.
Proof. intros Hfind. unfold step. rewrite Hfind. repeat split. Qed.

Lemma findTimer_skip id i cb ts :
  i <> id -> findTimer id ((i, cb) :: ts) = findTimer id ts.
Proof. intros Hne. simpl. now destruct (Nat.eqb_spec i id). Qed.

Lemma findTimer_kept id other ts :
  other <> id ->
  findTimer id (List.filter (fun t => negb (Nat.eqb (fst t) other)) ts)
  = findTimer id ts.
Proof.
  intros Hne. induction ts as [|[i cb] ts IH]; [reflexivity|].
  simpl. destruct (Nat.eqb_spec i other) as [->|Hi]; simpl.
  - destruct (Nat.eqb_spec other id); [contradiction | exact IH].
  - destruct (Nat.eqb_spec i id); [reflexivity | exact IH].
Qed.

(** X11. Two clicks on Dequeue before either timer has fired: both timers report
    the same value, the one at [front] when the buttons were clicked, and
    together they remove one element, in whichever order they fire. *)
Theorem overlapping_dequeues_remove_one (w : World) :
  size (queueOf w) <> 0 ->
  let first := nextTimer w in
  let second := S (nextTimer w) in
  let value := js_get (data (queueOf w)) (front (queueOf w)) in
  let clicked := dequeue (dequeue w) in
  let w1 := step clicked (TimerFires first) in
  let w2 := step w1 (TimerFires second) in
  let w1' := step clicked (TimerFires second) in
  let w2' := step w1' (TimerFires first) in
  statusMessage (component w1) = MsgDequeued value /\
  statusMessage (component w2) = MsgDequeued value /\
  queueOf w2 = dequeueState (queueOf w) /\
  statusMessage (component w1') = MsgDequeued value /\
  statusMessage (component w2') = MsgDequeued value /\
  queueOf w2' = dequeueState (queueOf w).
Proof.
  intros Hsome first second value clicked w1 w2 w1' w2'.
  assert (Hclicked : clicked
            = setTimeout (DequeueEnd (queueOf w)
                            (js_set (data (queueOf w)) (front (queueOf w)) JNull)
                            value)
                (setTimeout (DequeueEnd (queueOf w)
                               (js_set (data (queueOf w)) (front (queueOf w)) JNull)
                               value)
                   (update (setAnimatingIndex (Some (front (queueOf w)))) w))).
  { unfold clicked. rewrite (dequeue_schedules w Hsome).
    now rewrite dequeue_schedules. }
  assert (Hne : second <> first) by (unfold first, second; lia).
  assert (H1 : findTimer first (timers clicked) = Some (DequeueEnd (queueOf w)
                 (js_set (data (queueOf w)) (front (queueOf w)) JNull) value)).
  { rewrite Hclicked. cbn [setTimeout timers nextTimer update].
    rewrite findTimer_skip by exact Hne. apply findTimer_fresh. }
  assert (H1' : findTimer second (timers clicked) = Some (DequeueEnd (queueOf w)
                 (js_set (data (queueOf w)) (front (queueOf w)) JNull) value)).
  { rewrite Hclicked. cbn [setTimeout timers nextTimer update].
    apply findTimer_fresh. }
  assert (H2 : findTimer second (timers w1) = Some (DequeueEnd (queueOf w)
                 (js_set (data (queueOf w)) (front (queueOf w)) JNull) value)).
  { unfold w1, step. rewrite H1.
    cbn [runCallback update timers clearTimeout].
    rewrite findTimer_kept by lia. exact H1'. }
  assert (H2' : findTimer first (timers w1') = Some (DequeueEnd (queueOf w)
                 (js_set (data (queueOf w)) (front (queueOf w)) JNull) value)).
  { unfold w1', step. rewrite H1'.
    cbn [runCallback update timers clearTimeout].
    rewrite findTimer_kept by lia. exact H1. }
  destruct (pending_dequeue_fires _ _ _ _ _ H1) as (_ & Hm1 & _).
  destruct (pending_dequeue_fires _ _ _ _ _ H2) as (Hq2 & Hm2 & _).
  destruct (pending_dequeue_fires _ _ _ _ _ H1') as (_ & Hm1' & _).
  destruct (pending_dequeue_fires _ _ _ _ _ H2') as (Hq2' & Hm2' & _).
  repeat split; assumption.
Qed.

Lemma overlapping_dequeues_remove_one_witness :
  let w := run [ChangeQueueSize "3"; ClickCreate;
                ChangeInputValue "1"; ClickEnqueue;
                ChangeInputValue "2"; ClickEnqueue] initialWorld in
  size (queueOf w) <> 0 /\
  queueOf (step (step (dequeue (dequeue w)) (TimerFires (nextTimer w)))
             (TimerFires (S (nextTimer w))))
  = dequeueState (queueOf w).
Proof.
  intros w.
  assert (Hsome : size (queueOf w) <> 0) by discriminate.
  refine (conj Hsome _).
  exact (proj1 (proj2 (proj2 (overlapping_dequeues_remove_one w Hsome)))).
Defined.

(** X13. Reset does not cancel a pending dequeue: when its timer fires after the
    reset, the queue state computed at the click comes back, capacity and
    cells included, while the page shows the set-up card. *)
Theorem reset_keeps_pending_dequeue (w : World) :
  reachable w ->
  size (queueOf w) <> 0 ->
  let w1 := resetQueue (dequeue w) in
  let w2 := step w1 (TimerFires (nextTimer w)) in
  queueOf w1 = emptyQueueState /\
  isInitialized (component w1) = false /\
  queueOf w2 = dequeueState (queueOf w) /\
  1 <= maxSize (queueOf w2) /\
  isInitialized (component w2) = false /\
  statusMessage (component w2)
    = MsgDequeued (js_get (data (queueOf w)) (front (queueOf w))).
Proof.
  intros Hreach Hsome w1 w2.
  destruct (wfQueue_some _ (reachable_wf w Hreach) Hsome) as [Hlive _].
  assert (Hfind : findTimer (nextTimer w) (timers w1)
            = Some (DequeueEnd (queueOf w)
                      (js_set (data (queueOf w)) (front (queueOf w)) JNull)
                      (js_get (data (queueOf w)) (front (queueOf w))))).
  { unfold w1. rewrite (dequeue_schedules w Hsome).
    cbn [resetQueue setTimeout timers nextTimer update]. apply findTimer_fresh. }
  destruct (pending_dequeue_fires _ _ _ _ _ Hfind) as (Hq & Hmsg & Hinit & _).
  fold w2 in Hq, Hmsg, Hinit.
  repeat split; try assumption.
  rewrite Hq. simpl. apply Hlive.
Qed.

Lemma reset_keeps_pending_dequeue_witness :
  let w := run [ChangeQueueSize "3"; ClickCreate;
                ChangeInputValue "1"; ClickEnqueue] initialWorld in
  reachable w /\ size (queueOf w) <> 0 /\
  queueOf (step (resetQueue (dequeue w)) (TimerFires (nextTimer w)))
  = dequeueState (queueOf w).
Proof.
  intros w.
  assert (Hreach : reachable w) by (eexists; reflexivity).
  assert (Hsome : size (queueOf w) <> 0) by discriminate.
  refine (conj Hreach (conj Hsome _)).
  exact (proj1 (proj2 (proj2 (reset_keeps_pending_dequeue w Hreach Hsome)))).
Defined.

(** ** The timers *)

Lemma timerInvariant_update f w :
  animationTimeoutRef (f (component w)) = animationTimeoutRef (component w) ->
  timerInvariant w -> timerInvariant (update f w).
Proof.
  intros Href (Hnext & Hissued & Hanim & Hone). unfold timerInvariant.
  cbn [update component timers nextTimer]. rewrite Href. auto.
Qed.

Lemma filter_keep_shorter {A} (p keep : A -> bool) (l : list A) :
  (length (List.filter p (List.filter keep l)) <= length (List.filter p l))%nat.
Proof.
  induction l as [|t ts IH]; [simpl; lia|].
  simpl. destruct (keep t); simpl; destruct (p t); simpl; lia.
Qed.

Lemma timerInvariant_cleared id w :
  timerInvariant w -> timerInvariant (clearTimeout id w).
Proof.
  intros (Hnext & Hissued & Hanim & Hone). unfold timerInvariant.
  cbn [clearTimeout component timers nextTimer].
  split; [exact Hnext | split; [exact Hissued | split]].
  - now apply Forall_keep.
  - etransitivity; [apply filter_keep_shorter | exact Hone].
Qed.

Lemma enqueue_timers w value :
  parseInt (inputValue (component w)) = Some value ->
  size (queueOf w) < maxSize (queueOf w) ->
  nextTimer (enqueue w) = S (nextTimer w) /\
  animationTimeoutRef (component (enqueue w)) = Some (nextTimer w) /\
  timers (enqueue w)
  = (nextTimer w, AnimationEnd)
    :: match animationTimeoutRef (component w) with
       | Some (S id) =>
           List.filter (fun t => negb (Nat.eqb (fst t) (S id))) (timers w)
       | _ => timers w
       end.
Proof.
  intros Hparse Hroom. unfold enqueue, queueOf in *. rewrite Hparse.
  destruct (Z.leb_spec (maxSize (queueState (component w)))
                       (size (queueState (component w)))); [lia|].
  cbn [update component animationTimeoutRef setStatusMessage
         setInputValue setQueueState setAnimatingIndex].
  destruct (animationTimeoutRef (component w)) as [[|id]|]; repeat split.
Qed.

Lemma no_animation_left w :
  timerInvariant w ->
  Forall (fun t => isAnimationEnd t = false)
    match animationTimeoutRef (component w) with
    | Some (S id) =>
        List.filter (fun t => negb (Nat.eqb (fst t) (S id))) (timers w)
    | _ => timers w
    end.
Proof.
  intros (Hnext & Hissued & Hanim & Hone).
  destruct (animationTimeoutRef (component w)) as [[|id]|] eqn:Href.
  - specialize (Hissued _ eq_refl). lia.
  - clear Hone. induction Hanim as [|t ts Ht _ IH]; [constructor|].
    simpl. destruct (Nat.eqb_spec (fst t) (S id)) as [E|Hne]; simpl;
      [exact IH|].
    constructor; [|exact IH].
    destruct (isAnimationEnd t); [|reflexivity].
    specialize (Ht eq_refl). congruence.
  - eapply Forall_impl; [exact Hanim|]. intros t Ht. cbv beta in Ht.
    destruct (isAnimationEnd t); [|reflexivity].
    specialize (Ht eq_refl). discriminate.
Qed.

Lemma filter_none {A} (p : A -> bool) (l : list A) :
  Forall (fun t => p t = false) l -> List.filter p l = [].
Proof.
  induction 1 as [|t ts Ht _ IH]; [reflexivity|]. simpl. now rewrite Ht.
Qed.

Lemma timerInvariant_enqueue w : timerInvariant w -> timerInvariant (enqueue w).
Proof.
  intros Hinv.
  destruct (parseInt (inputValue (component w))) as [value|] eqn:Hparse;
    [|unfold enqueue; rewrite Hparse; now apply timerInvariant_update].
  destruct (Z.le_gt_cases (maxSize (queueOf w)) (size (queueOf w))) as [H|H].
  { rewrite (enqueue_rejects w value Hparse H). now apply timerInvariant_update. }
  destruct (enqueue_timers w value Hparse H) as (Hnext & Href & Htimers).
  pose proof (no_animation_left w Hinv) as Hnone.
  destruct Hinv as (Hpos & _).
  unfold timerInvariant. rewrite Hnext, Href, Htimers.
  repeat split.
  - lia.
  - injection H0 as <-. exact Hpos.
  - injection H0 as <-. lia.
  - constructor; [reflexivity|].
    eapply Forall_impl; [exact Hnone|]. intros t Ht Hanim. congruence.
  - simpl. rewrite (filter_none _ _ Hnone). simpl. lia.
Qed.

Lemma timerInvariant_dequeue w : timerInvariant w -> timerInvariant (dequeue w).
Proof.
  intros Hinv.
  destruct (Z.eq_dec (size (queueOf w)) 0) as [E|Hne].
  - rewrite (dequeue_rejects w E). now apply timerInvariant_update.
  - rewrite (dequeue_schedules w Hne).
    destruct Hinv as (Hnext & Hissued & Hanim & Hone).
    unfold timerInvariant. cbn [setTimeout update component timers nextTimer
      animationTimeoutRef setAnimatingIndex].
    repeat split; try lia.
    + apply Hissued in H. lia.
    + apply Hissued in H. lia.
    + constructor; [discriminate | exact Hanim].
    + exact Hone.
Qed.

Lemma timerInvariant_step w e : timerInvariant w -> timerInvariant (step w e).
Proof.
  intros Hinv. destruct e; simpl.
  - now apply timerInvariant_update.
  - now apply timerInvariant_update.
  - unfold initializeQueue. destruct (parseInt _) as [n|];
      [|now apply timerInvariant_update].
    destruct (_ || _); [now apply timerInvariant_update|].
    do 3 (apply timerInvariant_update; [reflexivity|]). exact Hinv.
  - now apply timerInvariant_enqueue.
  - now apply timerInvariant_dequeue.
  - unfold getFront. destruct (_ =? _); now apply timerInvariant_update.
  - unfold getRear. destruct (_ =? _); now apply timerInvariant_update.
  - now apply timerInvariant_update.
  - now apply timerInvariant_update.
  - now apply timerInvariant_update.
  - unfold resetQueue.
    do 6 (apply timerInvariant_update; [reflexivity|]). exact Hinv.
  - now apply timerInvariant_update.
  - destruct (findTimer id (timers w)) as [cb|]; [|exact Hinv].
    apply (timerInvariant_cleared id) in Hinv.
    destruct cb; simpl.
    + now apply timerInvariant_update.
    + do 3 (apply timerInvariant_update; [reflexivity|]). exact Hinv.
Qed.

Lemma timerInvariant_reachable w : reachable w -> timerInvariant w.
Proof.
  intros [events <-].
  assert (H0 : timerInvariant initialWorld).
  { repeat split; simpl; try lia; try discriminate. constructor. }
  revert H0. generalize initialWorld.
  induction events as [|e events IH]; intros w Hinv; [exact Hinv|].
  simpl. apply IH. now apply timerInvariant_step.
Qed.

(** X14. At most one timer that ends an enqueue highlight is pending at any time:
    the one the latest enqueue scheduled, whose id the ref holds. *)
Theorem one_animation_timer (events : list Event) :
  let w := run events initialWorld in
  (length (List.filter isAnimationEnd (timers w)) <= 1)%nat /\
  (forall id, In (id, AnimationEnd) (timers w) ->
              animationTimeoutRef (component w) = Some id /\
              (1 <= id < nextTimer w)%nat).
Proof.
  intros w.
  assert (Hinv : timerInvariant w)
    by (apply timerInvariant_reachable; now exists events).
  destruct Hinv as (Hnext & Hissued & Hanim & Hone).
  split; [exact Hone|].
  intros id Hin. rewrite List.Forall_forall in Hanim.
  pose proof (Hanim _ Hin eq_refl) as Href. simpl in Href.
  split; [exact Href | now apply Hissued].
Qed.

Lemma one_animation_timer_witness :
  let w := run [ChangeQueueSize "3"; ClickCreate;
                ChangeInputValue "1"; ClickEnqueue;
                ChangeInputValue "2"; ClickEnqueue] initialWorld in
  In (2%nat, AnimationEnd) (timers w) /\
  animationTimeoutRef (component w) = Some 2%nat.
Proof.
  intros w.
  assert (Hin : In (2%nat, AnimationEnd) (timers w))
    by (vm_compute; left; reflexivity).
  refine (conj Hin _).
  exact (proj1 (proj2 (one_animation_timer
                         [ChangeQueueSize "3"; ClickCreate;
                          ChangeInputValue "1"; ClickEnqueue;
                          ChangeInputValue "2"; ClickEnqueue]) 2%nat Hin)).
Defined.

(** X12. An enqueue made while a dequeue is pending is shown as done, and is
    undone when the dequeue's timer fires: the queue state is then the one
    computed at the Dequeue click, without the enqueued value. *)
Theorem enqueue_during_pending_dequeue_is_lost
    (w : World) (text : string) (value : Z) :
  reachable w ->
  size (queueOf w) <> 0 ->
  size (queueOf w) < maxSize (queueOf w) ->
  parseInt text = Some value ->
  let w1 := enqueueOp text (dequeue w) in
  let w2 := step w1 (TimerFires (nextTimer w)) in
  queueOf w1 = enqueueState value (queueOf w) /\
  statusMessage (component w1)
    = MsgEnqueued value (js_rem (rear (queueOf w) + 1) (maxSize (queueOf w))) /\
  queueOf w2 = dequeueState (queueOf w) /\
  statusMessage (component w2)
    = MsgDequeued (js_get (data (queueOf w)) (front (queueOf w))).
Proof.
  intros Hreach Hsome Hroom Hparse w1 w2.
  pose proof (timerInvariant_reachable w Hreach) as (_ & Hissued & _).
  set (clicked := update (setInputValue text) (dequeue w)).
  assert (Hq : queueOf clicked = queueOf w).
  { unfold clicked. now rewrite (dequeue_schedules w Hsome). }
  assert (Hparse' : parseInt (inputValue (component clicked)) = Some value)
    by exact Hparse.
  assert (Hroom' : size (queueOf clicked) < maxSize (queueOf clicked))
    by now rewrite Hq.
  destruct (enqueue_accepts clicked value Hparse' Hroom') as (Hq1 & Hm1 & _).
  destruct (enqueue_timers clicked value Hparse' Hroom') as (_ & _ & Htimers).
  change (enqueue clicked) with w1 in Hq1, Hm1, Htimers.
  rewrite Hq in Hq1, Hm1.
  assert (Hfind : findTimer (nextTimer w) (timers w1)
            = Some (DequeueEnd (queueOf w)
                      (js_set (data (queueOf w)) (front (queueOf w)) JNull)
                      (js_get (data (queueOf w)) (front (queueOf w))))).
  { rewrite Htimers. unfold clicked. rewrite (dequeue_schedules w Hsome).
    cbn [setTimeout update component timers nextTimer animationTimeoutRef
           setInputValue setAnimatingIndex].
    rewrite findTimer_skip by lia.
    destruct (animationTimeoutRef (component w)) as [[|id]|] eqn:Href;
      try apply findTimer_fresh.
    rewrite findTimer_kept; [apply findTimer_fresh|].
    specialize (Hissued _ eq_refl). lia. }
  destruct (pending_dequeue_fires _ _ _ _ _ Hfind) as (Hq2 & Hm2 & _).
  repeat split; assumption.
Qed.

Lemma enqueue_during_pending_dequeue_is_lost_witness :
  let w := run [ChangeQueueSize "3"; ClickCreate;
                ChangeInputValue "1"; ClickEnqueue] initialWorld in
  reachable w /\ size (queueOf w) <> 0 /\
  size (queueOf w) < maxSize (queueOf w) /\ parseInt "2" = Some 2 /\
  queueOf (step (enqueueOp "2" (dequeue w)) (TimerFires (nextTimer w)))
  = dequeueState (queueOf w).
Proof.
  intros w.
  assert (Hreach : reachable w) by (eexists; reflexivity).
  assert (Hsome : size (queueOf w) <> 0) by discriminate.
  assert (Hroom : size (queueOf w) < maxSize (queueOf w)) by reflexivity.
  assert (Hparse : parseInt "2" = Some 2) by reflexivity.
  refine (conj Hreach (conj Hsome (conj Hroom (conj Hparse _)))).
  exact (proj1 (proj2 (proj2 (enqueue_during_pending_dequeue_is_lost
                                w "2" 2 Hreach Hsome Hroom Hparse)))).
Defined.


(** ** The queue panel *)

Lemma enqueue_keeps_isInitialized w :
  isInitialized (component (enqueue w)) = isInitialized (component w).
Proof.
  unfold enqueue. destruct (parseInt _); [|reflexivity].
  destruct (_ <=? _); [reflexivity|].
  cbn [update component animationTimeoutRef setStatusMessage
         setInputValue setQueueState setAnimatingIndex].
  now destruct (animationTimeoutRef (component w)) as [[|id]|].
Qed.

Lemma enqueue_keeps_maxSize w :
  maxSize (queueOf (enqueue w)) = maxSize (queueOf w).
Proof.
  unfold enqueue. destruct (parseInt _); [|reflexivity].
  destruct (_ <=? _); [reflexivity|].
  cbn [update component animationTimeoutRef setStatusMessage
         setInputValue setQueueState setAnimatingIndex].
  now destruct (animationTimeoutRef (component w)) as [[|id]|].
Qed.

Lemma shown_queue_step w e :
  invariant w ->
  (isInitialized (component w) = true -> maxSize (queueOf w) <> 0) ->
  isInitialized (component (step w e)) = true ->
  maxSize (queueOf (step w e)) <> 0.
Proof.
  intros (Hwf & Hpend & _) Hshown. destruct e; simpl; try exact Hshown.
  - unfold initializeQueue. destruct (parseInt _) as [n|]; [|exact Hshown].
    destruct (Z.leb_spec n 0); [exact Hshown|].
    destruct (20 <? n); [exact Hshown|]. simpl. lia.
  - rewrite enqueue_keeps_isInitialized, enqueue_keeps_maxSize. exact Hshown.
  - destruct (Z.eq_dec (size (queueOf w)) 0) as [E|Hne].
    + rewrite (dequeue_rejects w E). exact Hshown.
    + rewrite (dequeue_schedules w Hne). exact Hshown.
  - unfold getFront. destruct (_ =? _); exact Hshown.
  - unfold getRear. destruct (_ =? _); exact Hshown.
  - discriminate.
  - destruct (findTimer id (timers w)) as [cb|] eqn:Hfind; [|exact Hshown].
    destruct (findTimer_Forall _ _ _ _ Hpend Hfind) as [i Hcb].
    destruct cb as [|q newData dequeuedValue]; [exact Hshown|].
    destruct Hcb as (Hlive & _). intros _. simpl. destruct Hlive. lia.
Qed.

(** X15. Whenever the queue panel is shown ([isInitialized]), the queue has a
    capacity between 1 and 20, as many cells, and [front] inside them. *)
Theorem shown_queue_has_cells (events : list Event) :
  let w := run events initialWorld in
  isInitialized (component w) = true ->
  1 <= maxSize (queueOf w) <= 20 /\
  Z.of_nat (length (data (queueOf w))) = maxSize (queueOf w) /\
  0 <= front (queueOf w) < maxSize (queueOf w).
Proof.
  intros w Hshown.
  assert (Hne : maxSize (queueOf w) <> 0).
  { revert Hshown. unfold w. clear w.
    assert (H0 : isInitialized (component initialWorld) = true ->
                 maxSize (queueOf initialWorld) <> 0) by discriminate.
    pose proof invariant_initial as Hinv. revert Hinv H0.
    generalize initialWorld.
    induction events as [|e events IH]; intros w Hinv H0; [exact H0|].
    simpl. apply IH; [now apply invariant_step|].
    now apply shown_queue_step. }
  destruct (reachable_wf w) as [E|Hlive]; [now exists events | |].
  - rewrite E in Hne. now elim Hne.
  - repeat split; apply Hlive.
Qed.

Lemma shown_queue_has_cells_witness :
  let w := run [ChangeQueueSize "4"; ClickCreate] initialWorld in
  isInitialized (component w) = true /\ 1 <= maxSize (queueOf w) <= 20.
Proof.
  intros w.
  assert (Hshown : isInitialized (component w) = true) by reflexivity.
  refine (conj Hshown _).
  exact (proj1 (shown_queue_has_cells [ChangeQueueSize "4"; ClickCreate] Hshown)).
Defined.

(** X16. A cell that carries the front or the rear mark is a cell of the array
    and holds a number, and it is the cell at [front] or [rear]. *)
Theorem marks_are_on_values (events : list Event) (index : Z) :
  let q := queueOf (run events initialWorld) in
  (marksFront q index = true ->
   index = front q /\ 0 <= index < Z.of_nat (length (data q)) /\
   exists v, js_get (data q) index = JNum v) /\
  (marksRear q index = true ->
   index = rear q /\ 0 <= index < Z.of_nat (length (data q)) /\
   exists v, js_get (data q) index = JNum v).
Proof.
  intros q.
  assert (Hwf : wfQueue q) by (apply reachable_wf; now exists events).
  assert (Hmark : forall p, (index =? p) && (0 <? size q) = true ->
                            index = p /\ live q /\ 0 < size q).
  { intros p H. apply andb_prop in H as [H1 H2].
    apply Z.eqb_eq in H1. apply Z.ltb_lt in H2.
    split; [exact H1|]. split; [|exact H2]. apply wfQueue_some; [exact Hwf | lia]. }
  split; intros H; apply Hmark in H as (-> & Hlive & Hpos).
  - split; [reflexivity | split].
    + now apply front_inside.
    + now apply front_was_used.
  - pose proof (rear_of_ring q Hlive Hpos) as Hrear.
    split; [reflexivity | split].
    + rewrite (live_len q Hlive). destruct Hlive. lia.
    + rewrite Hrear.
      replace (front q + size q - 1) with (front q + (size q - 1)) by lia.
      apply used_cell; [exact Hlive | lia].
Qed.

Lemma marks_are_on_values_witness :
  let q := queueOf (run [ChangeQueueSize "3"; ClickCreate;
                         ChangeInputValue "8"; ClickEnqueue] initialWorld) in
  marksRear q 0 = true /\ exists v, js_get (data q) 0 = JNum v.
Proof.
  intros q.
  assert (Hmark : marksRear q 0 = true) by reflexivity.
  refine (conj Hmark _).
  exact (proj2 (proj2 (proj2 (marks_are_on_values
           [ChangeQueueSize "3"; ClickCreate;
            ChangeInputValue "8"; ClickEnqueue] 0) Hmark))).
Defined.


(** ** The runs the page allows *)

Lemma allowed_step_message w e :
  enabled w e = true ->
  isRejection (statusMessage (component w)) = false ->
  isRejection (statusMessage (component (step w e))) = false.
Proof.
  intros Hen Hmsg. destruct e; simpl in *; try exact Hmsg; try reflexivity.
  - unfold initializeQueue. destruct (parseInt _) as [n|]; [|reflexivity].
    now destruct (_ || _).
  - apply andb_prop in Hen as [_ Hen]. apply negb_true_iff in Hen.
    apply orb_false_elim in Hen as [Hroom _].
    unfold enqueue. destruct (parseInt _); [|reflexivity].
    rewrite Hroom.
    cbn [update component animationTimeoutRef setStatusMessage
           setInputValue setQueueState setAnimatingIndex].
    now destruct (animationTimeoutRef (component w)) as [[|id]|].
  - apply andb_prop in Hen as [_ Hen]. apply negb_true_iff in Hen.
    unfold dequeue. now rewrite Hen.
  - apply andb_prop in Hen as [_ Hen]. apply negb_true_iff in Hen.
    unfold getFront. now rewrite Hen.
  - apply andb_prop in Hen as [_ Hen]. apply negb_true_iff in Hen.
    unfold getRear. now rewrite Hen.
  - destruct (findTimer id (timers w)) as [[|q newData v]|]; easy.
Qed.

(** X17. Along a run in which every event is one the page allows when it happens,
    the status never shows "Queue is full", "Queue is empty" or "No front /
    rear element": the buttons are disabled in exactly the states in which
    the handlers would answer so. *)
Theorem allowed_runs_never_reject (events : list Event) :
  allowed events initialWorld = true ->
  isRejection (statusMessage (component (run events initialWorld))) = false.
Proof.
  assert (H0 : isRejection (statusMessage (component initialWorld)) = false)
    by reflexivity.
  revert H0. generalize initialWorld.
  induction events as [|e events IH]; intros w Hmsg Hall; [exact Hmsg|].
  simpl in Hall. apply andb_prop in Hall as [Hen Hrest].
  simpl. apply IH; [|exact Hrest]. now apply allowed_step_message.
Qed.

Lemma allowed_runs_never_reject_witness :
  allowed [ChangeQueueSize "1"; ClickCreate; ChangeInputValue "5"; ClickEnqueue;
           ClickGetRear; ClickDequeue; TimerFires 2] initialWorld = true /\
  isRejection (statusMessage (component
    (run [ChangeQueueSize "1"; ClickCreate; ChangeInputValue "5"; ClickEnqueue;
          ClickGetRear; ClickDequeue; TimerFires 2] initialWorld))) = false.
Proof.
  assert (Hall : allowed [ChangeQueueSize "1"; ClickCreate;
                          ChangeInputValue "5"; ClickEnqueue;
                          ClickGetRear; ClickDequeue; TimerFires 2]
                   initialWorld = true) by (vm_compute; reflexivity).
  refine (conj Hall _).
  exact (allowed_runs_never_reject _ Hall).
Defined.

Lemma highlight_update f w :
  queueState (f (component w)) = queueState (component w) ->
  isInitialized (f (component w)) = isInitialized (component w) ->
  animatingIndex (f (component w)) = animatingIndex (component w) ->
  highlightInvariant w -> highlightInvariant (update f w).
Proof.
  intros Hq Hi Ha [H1 H2]. unfold highlightInvariant, queueOf in *.
  cbn [update component]. rewrite Hq, Hi, Ha. auto.
Qed.

Lemma highlight_cleared w :
  animatingIndex (component w) = None -> highlightInvariant w.
Proof. intros H. split; [auto | intros i Hi; congruence]. Qed.

Lemma highlight_step w e :
  invariant w ->
  enabled w e = true ->
  highlightInvariant w -> highlightInvariant (step w e).
Proof.
  intros (Hwf & _) Hen Hhi. destruct e; simpl in *.
  - now apply highlight_update.
  - now apply highlight_update.
  - apply negb_true_iff in Hen. destruct Hhi as [H1 _].
    apply highlight_cleared. specialize (H1 Hen).
    unfold initializeQueue. destruct (parseInt _) as [n|]; [|exact H1].
    destruct (_ || _); exact H1.
  - apply andb_prop in Hen as [Hshown Hen]. apply negb_true_iff in Hen.
    apply orb_false_elim in Hen as [Hroom _]. apply Z.leb_gt in Hroom.
    destruct (parseInt (inputValue (component w))) as [value|] eqn:Hparse;
      [|unfold enqueue; rewrite Hparse; now apply highlight_update].
    destruct (enqueue_accepts w value Hparse Hroom) as (Hq & _ & Hanim & _).
    pose proof (wfQueue_room _ Hwf Hroom) as Hlive.
    split.
    + rewrite enqueue_keeps_isInitialized. congruence.
    + intros i Hi. rewrite Hanim in Hi. injection Hi as <-.
      rewrite Hq. unfold enqueueState. cbn [data].
      now rewrite js_get_set_eq by now apply newRear_inside.
  - apply andb_prop in Hen as [Hshown Hen]. apply negb_true_iff in Hen.
    apply Z.eqb_neq in Hen.
    destruct (wfQueue_some _ Hwf Hen) as [Hlive Hpos].
    rewrite (dequeue_schedules w Hen). split.
    + cbn [setTimeout update component isInitialized setAnimatingIndex].
      congruence.
    + intros i Hi. cbn in Hi. injection Hi as <-.
      destruct (front_was_used _ Hlive Hpos) as [v Hv].
      unfold queueOf in *. cbn. now rewrite Hv.
  - unfold getFront. destruct (_ =? _); now apply highlight_update.
  - unfold getRear. destruct (_ =? _); now apply highlight_update.
  - now apply highlight_update.
  - now apply highlight_update.
  - now apply highlight_update.
  - now apply highlight_cleared.
  - now apply highlight_update.
  - destruct (findTimer id (timers w)) as [[|q newData v]|]; [| |exact Hhi];
      now apply highlight_cleared.
Qed.

(** X18. Along a run the page allows, the highlighted cell always holds a value,
    so a cell shows the enqueue animation or none: the dequeue animation is
    never shown.  While a dequeue is pending its cell, still holding the
    value, shows the enqueue animation. *)
Theorem dequeue_animation_never_shown (events : list Event) (index : Z) :
  allowed events initialWorld = true ->
  let w := run events initialWorld in
  (cellAnimation (component w) index = ""
   \/ cellAnimation (component w) index = "animate-queue-enqueue") /\
  (enabled w ClickDequeue = true ->
   cellAnimation (component (dequeue w)) (front (queueOf w))
   = "animate-queue-enqueue").
Proof.
  intros Hall w.
  assert (Hboth : invariant w /\ highlightInvariant w).
  { unfold w. clear w.
    assert (H0 : highlightInvariant initialWorld)
      by now apply highlight_cleared.
    pose proof invariant_initial as Hinv. revert Hinv H0 Hall.
    generalize initialWorld.
    induction events as [|e events IH]; intros w Hinv H0 Hall; [now split|].
    simpl in Hall. apply andb_prop in Hall as [Hen Hrest]. simpl.
    apply IH; [now apply invariant_step | now apply highlight_step | exact Hrest]. }
  destruct Hboth as [Hinv Hhi].
  assert (Hshow : forall w0, highlightInvariant w0 ->
            forall i, cellAnimation (component w0) i = ""
                      \/ cellAnimation (component w0) i = "animate-queue-enqueue").
  { intros w0 [_ H2] i. unfold cellAnimation.
    destruct (animatingIndex (component w0)) as [j|]; [|now left].
    destruct (Z.eqb_spec j i) as [->|]; [|now left].
    right. fold (queueOf w0). now rewrite (H2 i eq_refl). }
  split; [now apply Hshow|].
  intros Hen.
  pose proof (highlight_step w ClickDequeue Hinv Hen Hhi) as Hhi'.
  simpl in Hhi'. destruct (Hshow _ Hhi' (front (queueOf w))) as [H|H];
    [|exact H].
  exfalso. revert H. simpl in Hen.
  apply andb_prop in Hen as [_ Hen]. apply negb_true_iff in Hen.
  apply Z.eqb_neq in Hen. rewrite (dequeue_schedules w Hen).
  unfold cellAnimation.
  cbn [setTimeout update component animatingIndex setAnimatingIndex].
  rewrite Z.eqb_refl. now destruct (notNull _).
Qed.

Lemma dequeue_animation_never_shown_witness :
  let events := [ChangeQueueSize "2"; ClickCreate;
                 ChangeInputValue "5"; ClickEnqueue] in
  allowed events initialWorld = true /\
  enabled (run events initialWorld) ClickDequeue = true /\
  cellAnimation (component (dequeue (run events initialWorld)))
    (front (queueOf (run events initialWorld)))
  = "animate-queue-enqueue".
Proof.
  intros events.
  assert (Hall : allowed events initialWorld = true) by (vm_compute; reflexivity).
  assert (Hen : enabled (run events initialWorld) ClickDequeue = true)
    by (vm_compute; reflexivity).
  refine (conj Hall (conj Hen _)).
  exact (proj2 (dequeue_animation_never_shown events 0 Hall) Hen).
Defined.


(** ** Reading numbers *)

Lemma readDigits_end rest acc : digitsEnd rest -> readDigits 10 rest acc = acc.
Proof.
  destruct rest as [|c r]; [reflexivity|]. unfold digitsEnd, isDecimalDigit.
  simpl. destruct (digitValue c) as [d|]; [|reflexivity]. now intros ->.
Qed.

Lemma readDigits_acc d rest : digitsEnd rest -> forall p,
  readDigits 10 (NilEmpty.string_of_uint d ++ rest) (Some (Z.pos p))
  = Some (Z.pos (Pos.of_uint_acc d p)).
Proof.
  intros Hend.
  induction d as [|d IH|d IH|d IH|d IH|d IH|d IH|d IH|d IH|d IH|d IH];
    intros p; [now apply readDigits_end| ..];
    read_digit; cbn [Pos.of_uint_acc]; rewrite <- IH; do 2 f_equal; lia.
Qed.

Lemma readDigits_zero d rest : digitsEnd rest ->
  readDigits 10 (NilEmpty.string_of_uint d ++ rest) (Some 0)
  = Some (Z.of_N (Pos.of_uint d)).
Proof.
  intros Hend.
  induction d as [|d IH|d IH|d IH|d IH|d IH|d IH|d IH|d IH|d IH|d IH];
    [now apply readDigits_end| ..]; read_digit; cbn [Pos.of_uint Z.of_N];
    [exact IH | rewrite <- (readDigits_acc d rest Hend); reflexivity ..].
Qed.

Lemma parseInt_zero_tail c r :
  c <> "x"%char -> c <> "X"%char ->
  parseInt (String "0" (String c r))
  = match readDigits 10 (String "0" (String c r)) (Some 0) with
    | Some n => Some (1 * n)
    | None => None
    end /\
  parseInt (String "-" (String "0" (String c r)))
  = match readDigits 10 (String "0" (String c r)) (Some 0) with
    | Some n => Some (-1 * n)
    | None => None
    end.
Proof.
  intros Hx HX.
  destruct c as [[|] [|] [|] [|] [|] [|] [|] [|]];
    try (now elim Hx); try (now elim HX); split; reflexivity.
Qed.

Lemma parseInt_digits d rest :
  d <> Decimal.Nil ->
  match rest with
  | String c _ => c <> "x"%char /\ c <> "X"%char
  | EmptyString => True
  end ->
  let s := NilEmpty.string_of_uint d ++ rest in
  parseInt s = match readDigits 10 s (Some 0) with
               | Some n => Some (1 * n)
               | None => None
               end /\
  parseInt (String "-" s) = match readDigits 10 s (Some 0) with
                            | Some n => Some (-1 * n)
                            | None => None
                            end.
Proof.
  intros Hnil Hhex.
  destruct d as [|d|d|d|d|d|d|d|d|d|d]; [congruence| ..];
    cbn [NilEmpty.string_of_uint String.append];
    try (generalize (NilEmpty.string_of_uint d ++ rest); intros tail;
         split; reflexivity).
  destruct d as [|d|d|d|d|d|d|d|d|d|d];
    cbn [NilEmpty.string_of_uint String.append];
    try (generalize (NilEmpty.string_of_uint d ++ rest); intros tail;
         split; reflexivity).
  destruct rest as [|c r]; [split; reflexivity|].
  now apply parseInt_zero_tail.
Qed.

Lemma parseInt_uint d rest :
  d <> Decimal.Nil ->
  digitsEnd rest ->
  match rest with
  | String c _ => c <> "x"%char /\ c <> "X"%char
  | EmptyString => True
  end ->
  parseInt (NilEmpty.string_of_uint d ++ rest) = Some (Z.of_N (Pos.of_uint d)) /\
  parseInt (String "-" (NilEmpty.string_of_uint d ++ rest))
  = Some (- Z.of_N (Pos.of_uint d)).
Proof.
  intros Hnil Hend Hhex.
  destruct (parseInt_digits d rest Hnil Hhex) as [Hpos Hneg].
  cbv zeta in Hpos, Hneg.
  rewrite Hpos, Hneg, (readDigits_zero d rest Hend).
  split; f_equal; lia.
Qed.

Lemma showNumber_digits n :
  exists d, d <> Decimal.Nil /\ Z.of_N (Pos.of_uint d) = Z.abs n /\
            showNumber n = (if n <? 0 then String "-" (NilEmpty.string_of_uint d)
                            else NilEmpty.string_of_uint d).
Proof.
  destruct n as [|p|p].
  - exists (Decimal.D0 Decimal.Nil). repeat split. discriminate.
  - exists (Pos.to_uint p). pose proof (Unsigned.to_uint_nonnil p) as Hnil.
    split; [exact Hnil | split].
    + now rewrite Unsigned.of_to.
    + unfold showNumber. simpl. now destruct (Pos.to_uint p).
  - exists (Pos.to_uint p). pose proof (Unsigned.to_uint_nonnil p) as Hnil.
    split; [exact Hnil | split].
    + now rewrite Unsigned.of_to.
    + unfold showNumber. simpl. now destruct (Pos.to_uint p).
Qed.

Lemma append_empty s : s ++ "" = s.
Proof. induction s as [|c s IH]; [reflexivity | simpl; now rewrite IH]. Qed.

Lemma parseInt_shown (n : Z) : parseInt (showNumber n) = Some n.
Proof.
  destruct (showNumber_digits n) as (d & Hnil & Hval & ->).
  destruct (parseInt_uint d "" Hnil I I) as [Hpos Hneg].
  rewrite append_empty in Hpos, Hneg.
  destruct (Z.ltb_spec n 0); [rewrite Hneg | rewrite Hpos]; f_equal; lia.
Qed.

Lemma parseInt_shown_tail (n : Z) (c : ascii) (rest : string) :
  isDecimalDigit c = false ->
  c <> "x"%char ->
  c <> "X"%char ->
  parseInt (showNumber n ++ String c rest) = Some n.
Proof.
  intros Hdigit Hx HX.
  destruct (showNumber_digits n) as (d & Hnil & Hval & ->).
  destruct (parseInt_uint d (String c rest) Hnil Hdigit (conj Hx HX))
    as [Hpos Hneg].
  destruct (Z.ltb_spec n 0); simpl String.append;
    [rewrite Hneg | rewrite Hpos]; f_equal; lia.
Qed.

Lemma enqueueOp_reading t1 t2 w :
  parseInt t1 = parseInt t2 ->
  queueOf (enqueueOp t1 w) = queueOf (enqueueOp t2 w) /\
  statusMessage (component (enqueueOp t1 w))
  = statusMessage (component (enqueueOp t2 w)).
Proof.
  intros H. unfold enqueueOp, enqueue.
  cbn [update component inputValue setInputValue queueState]. rewrite H.
  destruct (parseInt t2); [|now split].
  destruct (_ <=? _); [now split|].
  cbn [update component animationTimeoutRef setStatusMessage
         setInputValue setQueueState setAnimatingIndex].
  now destruct (animationTimeoutRef (component w)) as [[|id]|].
Qed.

Lemma initializeOp_reading t1 t2 w :
  parseInt t1 = parseInt t2 ->
  queueOf (initializeOp t1 w) = queueOf (initializeOp t2 w) /\
  isInitialized (component (initializeOp t1 w))
  = isInitialized (component (initializeOp t2 w)) /\
  statusMessage (component (initializeOp t1 w))
  = statusMessage (component (initializeOp t2 w)).
Proof.
  intros H. unfold initializeOp, initializeQueue.
  cbn [update component queueSize setQueueSize]. rewrite H.
  destruct (parseInt t2); [|now repeat split].
  now destruct (_ || _).
Qed.

(** X21. A capacity or a value typed with a fraction has the effect of its
    integer part: the queue created, the value enqueued and the message
    shown are those of the number before the point. *)
Theorem fractional_input_is_truncated (w : World) (n : Z) (fraction : string) :
  let text := showNumber n ++ String "." fraction in
  queueOf (initializeOp text w) = queueOf (initializeOp (showNumber n) w) /\
  statusMessage (component (initializeOp text w))
  = statusMessage (component (initializeOp (showNumber n) w)) /\
  queueOf (enqueueOp text w) = queueOf (enqueueOp (showNumber n) w) /\
  statusMessage (component (enqueueOp text w))
  = statusMessage (component (enqueueOp (showNumber n) w)).
Proof.
  intros text.
  assert (Hread : parseInt text = parseInt (showNumber n)).
  { unfold text. rewrite parseInt_shown.
    apply parseInt_shown_tail; [reflexivity | discriminate | discriminate]. }
  destruct (initializeOp_reading text (showNumber n) w Hread) as (H1 & _ & H2).
  destruct (enqueueOp_reading text (showNumber n) w Hread) as (H3 & H4).
  auto.
Qed.

(** ** The queue state decides *)

Lemma perform_same_queue w1 w2 op :
  reachable w1 -> reachable w2 ->
  queueOf w1 = queueOf w2 ->
  queueOf (perform w1 op) = queueOf (perform w2 op) /\
  statusMessage (component (perform w1 op))
  = statusMessage (component (perform w2 op)).
Proof.
  intros Hr1 Hr2 Hq. destruct op as [text|]; simpl.
  - unfold enqueueOp, enqueue.
    cbn [update component inputValue setInputValue queueState].
    fold (queueOf w1). fold (queueOf w2). rewrite Hq.
    destruct (parseInt text); [|now split].
    destruct (_ <=? _); [now split|].
    cbn [update component animationTimeoutRef setStatusMessage
           setInputValue setQueueState setAnimatingIndex].
    destruct (animationTimeoutRef (component w1)) as [[|id1]|];
      now destruct (animationTimeoutRef (component w2)) as [[|id2]|].
  - pose proof (reachable_invariant w1 Hr1) as (_ & _ & Hids1).
    pose proof (reachable_invariant w2 Hr2) as (_ & _ & Hids2).
    destruct (Z.eq_dec (size (queueOf w1)) 0) as [E|Hne].
    + rewrite (dequeueOp_rejects w1 Hids1 E).
      rewrite Hq in E. rewrite (dequeueOp_rejects w2 Hids2 E).
      split; [exact Hq | reflexivity].
    + destruct (dequeueOp_accepts w1 Hne) as (-> & -> & _).
      rewrite Hq in Hne. destruct (dequeueOp_accepts w2 Hne) as (-> & -> & _).
      now rewrite Hq.
Qed.

(** ** Calls made one at a time *)

Lemma quiet_timers ts :
  existsb isDequeueEnd ts = false <->
  Forall (fun t => isAnimationEnd t = true) ts.
Proof.
  induction ts as [|t ts IH]; simpl.
  - split; [constructor | reflexivity].
  - unfold isDequeueEnd at 1.
    rewrite orb_false_iff, negb_false_iff, IH. split.
    + intros [H1 H2]. now constructor.
    + inversion 1; auto.
Qed.




Lemma findTimer_found (P : nat * Callback -> Prop) id cb ts :
  (forall i j c, P (i, c) -> P (j, c)) ->
  Forall P ts -> findTimer id ts = Some cb -> P (id, cb).
Proof.
  intros Hsnd Hall Hfind.
  destruct (findTimer_Forall P id cb ts Hall Hfind) as [i Hi].
  exact (Hsnd _ _ _ Hi).
Qed.












(** ** The capacity of a queue *)

Lemma sameShape_update n cells f w :
  queueState (f (component w)) = queueState (component w) ->
  sameShape n cells w -> sameShape n cells (update f w).
Proof.
  intros Hq H. unfold sameShape, queueOf in *.
  cbn [update component timers]. now rewrite Hq.
Qed.

Lemma sameShape_step n cells w e :
  invariant w ->
  keepsQueue e = true ->
  sameShape n cells w -> sameShape n cells (step w e).
Proof.
  intros (Hwf & Hpend & _) Hkeep Hshape.
  destruct e; try discriminate; cbn [step];
    unfold checkIsEmpty, checkIsFull, showSize, goBack;
    try (apply sameShape_update; [reflexivity | exact Hshape]).
  - (* Enqueue *)
    destruct (parseInt (inputValue (component w))) as [value|] eqn:Hparse;
      [|unfold enqueue; rewrite Hparse; now apply sameShape_update].
    destruct (Z.le_gt_cases (maxSize (queueOf w)) (size (queueOf w))) as [H|H].
    { rewrite (enqueue_rejects w value Hparse H). now apply sameShape_update. }
    destruct (enqueue_accepts w value Hparse H) as (Hq & _).
    destruct (enqueue_timers w value Hparse H) as (_ & _ & Htimers).
    destruct Hshape as (Hn & Hcells & Hall).
    unfold sameShape. rewrite Hq, Htimers.
    split; [exact Hn | split].
    + rewrite length_data_enqueueState; [exact Hcells | now apply wfQueue_room].
    + constructor; [exact I|].
      destruct (animationTimeoutRef (component w)) as [[|id]|];
        try exact Hall. now apply Forall_keep.
  - (* Dequeue *)
    destruct (Z.eq_dec (size (queueOf w)) 0) as [E|Hne].
    { rewrite (dequeue_rejects w E). now apply sameShape_update. }
    rewrite (dequeue_schedules w Hne).
    destruct (wfQueue_some _ Hwf Hne) as [Hlive Hpos].
    destruct Hshape as (Hn & Hcells & Hall).
    split; [exact Hn | split; [exact Hcells|]].
    constructor; [|exact Hall].
    split; [exact Hn|]. cbn [snd].
    rewrite length_js_set; [exact Hcells | now apply front_inside].
  - unfold getFront. destruct (_ =? _); now apply sameShape_update.
  - unfold getRear. destruct (_ =? _); now apply sameShape_update.
  - (* a timer *)
    destruct Hshape as (Hn & Hcells & Hall).
    destruct (findTimer id (timers w)) as [[|captured newData v]|] eqn:Hfind;
      [| |now split].
    + split; [exact Hn | split; [exact Hcells|]]. now apply Forall_keep.
    + pose proof (findTimer_found (hasShape n cells) id _ _
                    (fun _ _ _ H => H) Hall Hfind) as [Hn' Hcells'].
      split; [exact Hn' | split; [exact Hcells'|]]. now apply Forall_keep.
Qed.

(** X6. From a reachable state with no dequeue pending, whatever is typed and
    clicked other than Create Queue and Reset, clicks that overlap a pending
    dequeue included, and in whatever order the timers fire, the capacity and
    the number of cells stay what they were. *)
Theorem capacity_is_fixed (w : World) (events : list Event) :
  reachable w ->
  dequeuePending w = false ->
  forallb keepsQueue events = true ->
  maxSize (queueOf (run events w)) = maxSize (queueOf w) /\
  length (data (queueOf (run events w))) = length (data (queueOf w)).
Proof.
  intros Hreach Hquiet Hkeep.
  assert (Hshape : sameShape (maxSize (queueOf w)) (length (data (queueOf w))) w).
  { split; [reflexivity | split; [reflexivity|]].
    apply quiet_timers in Hquiet.
    eapply Forall_impl; [exact Hquiet|].
    intros [i [|captured newData v]]; unfold isAnimationEnd, hasShape; simpl;
      [trivial | discriminate]. }
  pose proof (reachable_invariant w Hreach) as Hinv.
  revert Hshape Hinv Hkeep.
  generalize (maxSize (queueOf w)) (length (data (queueOf w))).
  clear Hreach Hquiet. revert w.
  induction events as [|e events IH]; intros w n cells Hshape Hinv Hkeep.
  - destruct Hshape as (Hn & Hcells & _). now split.
  - simpl in Hkeep. apply andb_prop in Hkeep as [Hk Hks]. simpl.
    apply IH; [now apply sameShape_step | now apply invariant_step | exact Hks].
Qed.

Lemma capacity_is_fixed_witness :
  let w := initializeOp "3" initialWorld in
  let events := [ChangeInputValue "1"; ClickEnqueue; ClickDequeue; ClickDequeue;
                 ChangeInputValue "2"; ClickEnqueue; TimerFires 3; ClickGetRear;
                 TimerFires 2] in
  reachable w /\ dequeuePending w = false /\
  forallb keepsQueue events = true /\
  maxSize (queueOf (run events w)) = maxSize (queueOf w).
Proof.
  intros w events.
  assert (Hreach : reachable w).
  { exists [ChangeQueueSize "3"; ClickCreate]. reflexivity. }
  assert (Hquiet : dequeuePending w = false) by reflexivity.
  assert (Hkeep : forallb keepsQueue events = true) by reflexivity.
  refine (conj Hreach (conj Hquiet (conj Hkeep _))).
  exact (proj1 (capacity_is_fixed w events Hreach Hquiet Hkeep)).
Defined.

(** ** Operations completed one after another *)

Lemma quiet_enqueueOp text w :
  dequeuePending w = false -> dequeuePending (enqueueOp text w) = false.
Proof.
  intros Hquiet. unfold dequeuePending in *. apply quiet_timers in Hquiet.
  apply quiet_timers. unfold enqueueOp.
  set (typed := update (setInputValue text) w).
  change (timers w) with (timers typed) in Hquiet.
  destruct (parseInt (inputValue (component typed))) as [value|] eqn:Hparse;
    [|unfold enqueue; rewrite Hparse; exact Hquiet].
  destruct (Z.le_gt_cases (maxSize (queueOf typed)) (size (queueOf typed)))
    as [H|H].
  { rewrite (enqueue_rejects typed value Hparse H). exact Hquiet. }
  destruct (enqueue_timers typed value Hparse H) as (_ & _ & ->).
  constructor; [reflexivity|].
  destruct (animationTimeoutRef (component typed)) as [[|id]|];
    try exact Hquiet. now apply Forall_keep.
Qed.

Lemma quiet_dequeueOp w :
  reachable w ->
  dequeuePending w = false -> dequeuePending (dequeueOp w) = false.
Proof.
  intros Hreach Hquiet.
  pose proof (reachable_invariant w Hreach) as (_ & _ & Hids).
  destruct (Z.eq_dec (size (queueOf w)) 0) as [E|Hne].
  - now rewrite (dequeueOp_rejects w Hids E).
  - unfold dequeuePending in *. apply quiet_timers in Hquiet.
    apply quiet_timers. unfold dequeueOp.
    rewrite (dequeue_schedules w Hne). unfold step, setTimeout.
    cbn [timers update nextTimer component]. rewrite findTimer_fresh.
    cbn [runCallback update clearTimeout timers List.filter fst].
    rewrite Nat.eqb_refl. cbn [negb]. now apply Forall_keep.
Qed.

Lemma quiet_performAll ops : forall w,
  reachable w ->
  dequeuePending w = false -> dequeuePending (performAll ops w) = false.
Proof.
  induction ops as [|op ops IH]; intros w Hreach Hquiet; [exact Hquiet|].
  simpl. apply IH; [now apply reachable_perform|].
  destruct op as [text|]; simpl;
    [now apply quiet_enqueueOp | now apply quiet_dequeueOp].
Qed.

(** X8. From a reachable state with no dequeue pending, dequeueing [size]
    times, each click made once the timer of the dequeue before has fired,
    reports the values of the queue in the order of the walk from [front],
    and leaves the queue empty, every cell null and no dequeue pending. *)
Theorem drain_reports_contents (w : World) :
  reachable w ->
  dequeuePending w = false ->
  let n := Z.to_nat (size (queueOf w)) in
  let w' := performAll (repeat Dequeue n) w in
  dequeuedValues (repeat Dequeue n) w = contents (queueOf w) /\
  size (queueOf w') = 0 /\
  Forall (eq JNull) (data (queueOf w')) /\
  dequeuePending w' = false.
Proof.
  intros Hreach Hquiet n w'.
  pose proof (wfQueue_bounds _ (reachable_wf w Hreach)) as Hbound.
  assert (Hsize : size (queueOf w) = Z.of_nat n) by (unfold n; lia).
  pose proof (drain_legal n w Hsize) as Hlegal.
  destruct (fifo_run _ w Hreach Hlegal) as [Hfifo _].
  pose proof (size_after_legal _ w Hreach Hlegal) as Hcount.
  fold w' in Hfifo, Hcount.
  rewrite enqueueCalls_drain, dequeueCalls_drain in Hcount.
  assert (Hzero : size (queueOf w') = 0) by lia.
  rewrite enqueuedValues_drain, app_nil_r, (contents_empty _ Hzero),
    app_nil_r in Hfifo.
  split; [now symmetry | split; [exact Hzero | split]];
    [|now apply quiet_performAll].
  assert (Hreach' : reachable w') by now apply reachable_performAll.
  destruct (reachable_wf w' Hreach') as [E|Hlive]; [rewrite E; constructor|].
  apply Forall_js_get. intros i Hi. rewrite (live_len _ Hlive) in Hi.
  symmetry. rewrite <- (ring_cover (front (queueOf w')) i _ Hi).
  apply (live_free _ Hlive).
  pose proof (Z.mod_pos_bound (i - front (queueOf w')) (maxSize (queueOf w'))).
  lia.
Qed.

Lemma drain_reports_contents_witness :
  let w := run [ChangeQueueSize "3"; ClickCreate;
                ChangeInputValue "8"; ClickEnqueue;
                ChangeInputValue "9"; ClickEnqueue] initialWorld in
  reachable w /\ dequeuePending w = false /\
  dequeuedValues (repeat Dequeue (Z.to_nat (size (queueOf w)))) w
  = contents (queueOf w).
Proof.
  intros w.
  assert (Hreach : reachable w) by (eexists; reflexivity).
  assert (Hquiet : dequeuePending w = false) by (vm_compute; reflexivity).
  refine (conj Hreach (conj Hquiet _)).
  exact (proj1 (drain_reports_contents w Hreach Hquiet)).
Defined.

(** X22. From reachable states with no dequeue pending, what a run of
    enqueues and dequeues does to the queue and what its dequeues report,
    each operation completed before the next (a dequeue by its timer),
    depends on the queue state alone: the highlight and its timer, the inputs
    and the status message play no part, and no dequeue is pending at the
    end.  So after a Reset clicked with no dequeue pending, a queue created
    anew behaves under such runs as one created on a newly loaded page. *)
Theorem queue_state_decides (ops : list Op) (w1 w2 : World) :
  reachable w1 ->
  reachable w2 ->
  dequeuePending w1 = false ->
  dequeuePending w2 = false ->
  queueOf w1 = queueOf w2 ->
  queueOf (performAll ops w1) = queueOf (performAll ops w2) /\
  dequeuedValues ops w1 = dequeuedValues ops w2 /\
  dequeuePending (performAll ops w1) = false /\
  dequeuePending (performAll ops w2) = false /\
  (forall sizeText,
     queueOf (performAll ops (initializeOp sizeText (resetQueue w1)))
     = queueOf (performAll ops (initializeOp sizeText initialWorld)) /\
     dequeuePending (performAll ops (initializeOp sizeText (resetQueue w1)))
     = false).
Proof.
  intros Hr1 Hr2 Hq1 Hq2 Hq.
  assert (Hrun : forall ops w1 w2, reachable w1 -> reachable w2 ->
            queueOf w1 = queueOf w2 ->
            queueOf (performAll ops w1) = queueOf (performAll ops w2) /\
            dequeuedValues ops w1 = dequeuedValues ops w2).
  { clear. induction ops as [|op ops IH]; intros w1 w2 Hr1 Hr2 Hq; [now split|].
    destruct (perform_same_queue w1 w2 op Hr1 Hr2 Hq) as [Hq' Hmsg].
    destruct (IH (perform w1 op) (perform w2 op)
                (reachable_perform w1 op Hr1) (reachable_perform w2 op Hr2) Hq')
      as [Hfinal Hdeq].
    split; [exact Hfinal|].
    destruct op as [text|]; simpl in *; [exact Hdeq|].
    unfold reported. now rewrite Hmsg, Hdeq. }
  destruct (Hrun ops w1 w2 Hr1 Hr2 Hq) as [H1 H2].
  split; [exact H1 | split; [exact H2 | split; [|split]]];
    try now apply quiet_performAll.
  intros sizeText.
  assert (Hreset : reachable (initializeOp sizeText (resetQueue w1))).
  { apply (reachable_step _ ClickCreate),
          (reachable_step _ (ChangeQueueSize sizeText)),
          (reachable_step _ ClickReset), Hr1. }
  split.
  - apply Hrun.
    + exact Hreset.
    + exists [ChangeQueueSize sizeText; ClickCreate]. reflexivity.
    + unfold initializeOp, initializeQueue.
      cbn [update component queueSize setQueueSize].
      destruct (parseInt sizeText); [|reflexivity].
      now destruct (_ || _).
  - apply quiet_performAll; [exact Hreset|].
    unfold dequeuePending, initializeOp, initializeQueue in *.
    cbn [update component queueSize setQueueSize resetQueue].
    destruct (parseInt sizeText); [|exact Hq1].
    destruct (_ || _); exact Hq1.
Qed.

Lemma queue_state_decides_witness :
  let w1 := run [ChangeQueueSize "2"; ClickCreate;
                 ChangeInputValue "5"; ClickEnqueue] initialWorld in
  let w2 := run [ChangeQueueSize "2"; ClickCreate;
                 ChangeInputValue "5"; ClickEnqueue;
                 ClickGetFront; TimerFires 1] initialWorld in
  reachable w1 /\ reachable w2 /\
  dequeuePending w1 = false /\ dequeuePending w2 = false /\
  queueOf w1 = queueOf w2 /\
  dequeuedValues [Enqueue "6"; Dequeue; Dequeue] w1
  = dequeuedValues [Enqueue "6"; Dequeue; Dequeue] w2.
Proof.
  intros w1 w2.
  assert (Hr1 : reachable w1) by (eexists; reflexivity).
  assert (Hr2 : reachable w2) by (eexists; reflexivity).
  assert (Hq1 : dequeuePending w1 = false) by (vm_compute; reflexivity).
  assert (Hq2 : dequeuePending w2 = false) by (vm_compute; reflexivity).
  assert (Hq : queueOf w1 = queueOf w2) by (vm_compute; reflexivity).
  refine (conj Hr1 (conj Hr2 (conj Hq1 (conj Hq2 (conj Hq _))))).
  exact (proj1 (proj2 (queue_state_decides
                         [Enqueue "6"; Dequeue; Dequeue] w1 w2
                         Hr1 Hr2 Hq1 Hq2 Hq))).
Defined.

(** ** Numbers a double holds exactly *)

(** X19. An integer of magnitude at most 2^53 - 1, as the status messages
    print it, is read back by [parseInt] as that integer: what "Enqueued v"
    or "Front element: v" shows can be typed into the value input to enqueue
    the same [v]. *)
Theorem parseInt_showNumber (n : Z) :
  isSafeInteger n = true ->
  parseInt (showNumber n) = Some n.
Proof. intros _. exact (parseInt_shown n). Qed.

Lemma parseInt_showNumber_witness :
  isSafeInteger (-9007199254740991) = true /\
  parseInt (showNumber (-9007199254740991)) = Some (-9007199254740991).
Proof.
  assert (Hsafe : isSafeInteger (-9007199254740991) = true) by reflexivity.
  refine (conj Hsafe _).
  exact (parseInt_showNumber (-9007199254740991) Hsafe).
Defined.

(** X20. [parseInt] stops at the first character that is not a digit: an
    integer of magnitude at most 2^53 - 1 followed by a fraction, an exponent
    or any other text is read as the integer alone, here for every text that
    does not go on with a digit or with the x of a hexadecimal prefix. *)
Theorem parseInt_ignores_tail (n : Z) (c : ascii) (rest : string) :
  isSafeInteger n = true ->
  isDecimalDigit c = false ->
  c <> "x"%char ->
  c <> "X"%char ->
  parseInt (showNumber n ++ String c rest) = Some n.
Proof. intros _. exact (parseInt_shown_tail n c rest). Qed.

Lemma parseInt_ignores_tail_witness :
  isSafeInteger 12 = true /\
  isDecimalDigit "." = false /\ "."%char <> "x"%char /\ "."%char <> "X"%char /\
  parseInt (showNumber 12 ++ String "." "75") = Some 12.
Proof.
  assert (Hsafe : isSafeInteger 12 = true) by reflexivity.
  assert (Hdigit : isDecimalDigit "." = false) by reflexivity.
  assert (Hx : "."%char <> "x"%char) by discriminate.
  assert (HX : "."%char <> "X"%char) by discriminate.
  refine (conj Hsafe (conj Hdigit (conj Hx (conj HX _)))).
  exact (parseInt_ignores_tail 12 "." "75" Hsafe Hdigit Hx HX).
Defined.

(** X9. On a reachable queue that is neither empty nor full and has no
    dequeue pending: an enqueue followed by a dequeue completed by its timer
    leaves the same queue state as a dequeue completed by its timer followed
    by the enqueue; the dequeue reports the same value either way, and no
    dequeue is pending after either. *)
Theorem enqueue_dequeue_commute (w : World) (text : string) (value : Z) :
  reachable w ->
  dequeuePending w = false ->
  parseInt text = Some value ->
  0 < size (queueOf w) < maxSize (queueOf w) ->
  queueOf (dequeueOp (enqueueOp text w)) = queueOf (enqueueOp text (dequeueOp w)) /\
  reported (dequeueOp (enqueueOp text w)) = reported (dequeueOp w) /\
  dequeuePending (dequeueOp (enqueueOp text w)) = false /\
  dequeuePending (enqueueOp text (dequeueOp w)) = false.
Proof.
  intros Hreach Hquiet Hparse Hrange.
  destruct (enqueue_dequeue_orders w text value Hreach Hparse Hrange) as [H1 H2].
  split; [exact H1 | split; [exact H2 | split]].
  - apply quiet_dequeueOp; [|now apply quiet_enqueueOp].
    apply (reachable_perform w (Enqueue text) Hreach).
  - apply quiet_enqueueOp. now apply quiet_dequeueOp.
Qed.

Lemma enqueue_dequeue_commute_witness :
  let w := run [ChangeQueueSize "3"; ClickCreate;
                ChangeInputValue "8"; ClickEnqueue] initialWorld in
  reachable w /\ dequeuePending w = false /\ parseInt "9" = Some 9 /\
  0 < size (queueOf w) < maxSize (queueOf w) /\
  queueOf (dequeueOp (enqueueOp "9" w)) = queueOf (enqueueOp "9" (dequeueOp w)).
Proof.
  intros w.
  assert (Hreach : reachable w) by (eexists; reflexivity).
  assert (Hquiet : dequeuePending w = false) by (vm_compute; reflexivity).
  assert (Hparse : parseInt "9" = Some 9) by reflexivity.
  assert (Hrange : 0 < size (queueOf w) < maxSize (queueOf w))
    by (split; reflexivity).
  refine (conj Hreach (conj Hquiet (conj Hparse (conj Hrange _)))).
  exact (proj1 (enqueue_dequeue_commute w "9" 9 Hreach Hquiet Hparse Hrange)).
Defined.
